(** * A shallow embedding of the chess rules engine of [src/main.py]

    The engine is the class [ChessBoard]: an 8x8 grid whose cells are
    either [None] or a reference to a mutable [Piece] object, plus the side
    to move.  Pieces are Python objects, mutated in place ([position],
    [has_moved], [piece_type]); the grid stores references to them.  The
    embedding keeps that shape: a store of [Piece] records indexed by
    references, a grid of optional references, and a state-and-exception
    monad in which every method of the class is written as it is in the
    source. *)

From Stdlib Require Import ZArith String Bool Lia.
From stdpp Require Import base tactics option list functions.

Open Scope Z_scope.

(** ** Data model (main.py 7-28) *)

Inductive PieceType := KING | QUEEN | ROOK | BISHOP | KNIGHT | PAWN.

Inductive PieceColor := WHITE | BLACK.

Definition PieceType_eqb (a b : PieceType) : bool :=
  match a, b with
  | KING, KING | QUEEN, QUEEN | ROOK, ROOK
  | BISHOP, BISHOP | KNIGHT, KNIGHT | PAWN, PAWN => true
  | _, _ => false
  end.

Definition PieceColor_eqb (a b : PieceColor) : bool :=
  match a, b with
  | WHITE, WHITE | BLACK, BLACK => true
  | _, _ => false
  end.

(** [Piece.__init__]: the four fields of a piece object. *)
Record Piece := mkPiece {
  piece_type : PieceType;
  color : PieceColor;
  position : Z * Z;
  has_moved : bool
}.

(** A reference to a [Piece] object (its identity). *)
Definition ref := nat.

(** The state the engine works on: the two fields of the [ChessBoard]
    object, and the store holding the [Piece] objects that the grid refers
    to.  [next_ref] is the next unused reference, used by [Piece_new]. *)
Record ChessBoard := mkChessBoard {
  board : list (list (option ref));
  current_turn : PieceColor;
  pieces : ref → Piece;
  next_ref : ref
}.

Definition with_board (g : list (list (option ref))) (s : ChessBoard) : ChessBoard :=
  mkChessBoard g (current_turn s) (pieces s) (next_ref s).

Definition with_turn (c : PieceColor) (s : ChessBoard) : ChessBoard :=
  mkChessBoard (board s) c (pieces s) (next_ref s).

Definition with_pieces (h : ref → Piece) (s : ChessBoard) : ChessBoard :=
  mkChessBoard (board s) (current_turn s) h (next_ref s).

(** ** Exceptions, outcomes and the monad *)

Inductive exn := IndexError | AttributeError.

(** A call returns a value, raises (the state is the one reached when the
    exception left the method), or does not terminate. *)
Inductive outcome (A : Type) :=
  | Ok (a : A) (s : ChessBoard)
  | Raise (e : exn) (s : ChessBoard)
  | Diverge.

Arguments Ok {A} a s.
Arguments Raise {A} e s.
Arguments Diverge {A}.

Definition M (A : Type) : Type := ChessBoard → outcome A.

Definition ret {A} (a : A) : M A := λ s, Ok a s.

Definition bind {A B} (m : M A) (f : A → M B) : M B :=
  λ s, match m s with
       | Ok a s' => f a s'
       | Raise e s' => Raise e s'
       | Diverge => Diverge
       end.

Definition raise {A} (e : exn) : M A := λ s, Raise e s.

Definition diverge {A} : M A := λ _, Diverge.

Notation "x <- m ;; k" := (bind m (λ x, k))
  (at level 100, m at next level, right associativity).
Notation "m ;;; k" := (bind m (λ _, k))
  (at level 100, right associativity).

(** ** Python lists: indexing with negative wrap-around and [IndexError] *)

(** The position an index denotes in a list of length [n], if any. *)
Definition py_index (n : nat) (i : Z) : option nat :=
  if (0 <=? i) && (i <? Z.of_nat n) then Some (Z.to_nat i)
  else if (- Z.of_nat n <=? i) && (i <? 0) then Some (Z.to_nat (i + Z.of_nat n))
  else None.

Definition getitem {A} (l : list A) (i : Z) : option A :=
  match py_index (length l) i with
  | Some k => l !! k
  | None => None
  end.

Definition setitem {A} (l : list A) (i : Z) (v : A) : option (list A) :=
  match py_index (length l) i with
  | Some k => Some (<[k:=v]> l)
  | None => None
  end.

(** [range(lo, hi)] *)
Definition range (lo hi : Z) : list Z :=
  map (λ k, lo + Z.of_nat k) (seq 0 (Z.to_nat (hi - lo))).

(** ** Reading and writing objects *)

(** [p.f] for a piece object [p]. *)
Definition attr {A} (f : Piece → A) (p : ref) : M A :=
  λ s, Ok (f (pieces s p)) s.

Definition set_position (p : ref) (v : Z * Z) : M unit :=
  λ s, let o := pieces s p in
       Ok tt (with_pieces
                (<[p := mkPiece (piece_type o) (color o) v (has_moved o)]> (pieces s)) s).

Definition set_has_moved (p : ref) (v : bool) : M unit :=
  λ s, let o := pieces s p in
       Ok tt (with_pieces
                (<[p := mkPiece (piece_type o) (color o) (position o) v]> (pieces s)) s).

Definition set_piece_type (p : ref) (v : PieceType) : M unit :=
  λ s, let o := pieces s p in
       Ok tt (with_pieces
                (<[p := mkPiece v (color o) (position o) (has_moved o)]> (pieces s)) s).

Definition get_turn : M PieceColor := λ s, Ok (current_turn s) s.

Definition set_turn (c : PieceColor) : M unit := λ s, Ok tt (with_turn c s).

(** [self.board[row][col]] *)
Definition board_get (row col : Z) : M (option ref) :=
  λ s, match getitem (board s) row with
       | None => Raise IndexError s
       | Some line =>
           match getitem line col with
           | None => Raise IndexError s
           | Some cell => Ok cell s
           end
       end.

(** [self.board[row][col] = v]: the row is fetched, then updated in place. *)
Definition board_set (row col : Z) (v : option ref) : M unit :=
  λ s, match py_index (length (board s)) row with
       | None => Raise IndexError s
       | Some i =>
           match board s !! i with
           | None => Raise IndexError s
           | Some line =>
               match setitem line col v with
               | None => Raise IndexError s
               | Some line' => Ok tt (with_board (<[i:=line']> (board s)) s)
               end
           end
       end.

(** ** ChessBoard.get_piece (main.py 66-70) *)

Definition on_board (row col : Z) : bool :=
  ((0 <=? row) && (row <? 8)) && ((0 <=? col) && (col <? 8)).

Definition get_piece (row col : Z) : M (option ref) :=
  if on_board row col then board_get row col else ret None.

(** ** ChessBoard.set_piece (main.py 72-76) *)

Definition set_piece (row col : Z) (piece : option ref) : M unit :=
  (match piece with
   | Some p => set_position p (row, col)
   | None => ret tt
   end) ;;;
  board_set row col piece.

(** ** The piece rules (main.py 137-224) *)

(** A [for] loop that returns [False] at the first occupied square of
    [sqs], followed by [return True]: the loop shared by the rook rule and
    the castling rule. *)
Fixpoint path_clear (sqs : list (Z * Z)) : M bool :=
  match sqs with
  | [] => ret true
  | (r, c) :: rest =>
      p <- get_piece r c ;;
      match p with
      | Some _ => ret false
      | None => path_clear rest
      end
  end.

Definition _validate_pawn (from_pos to_pos : Z * Z) : M bool :=
  let '(from_row, from_col) := from_pos in
  let '(to_row, to_col) := to_pos in
  piece <- get_piece from_row from_col ;;
  match piece with
  | None => raise AttributeError
  | Some p =>
      pc <- attr color p ;;
      let direction := if PieceColor_eqb pc WHITE then -1 else 1 in
      if (from_col =? to_col) && (to_row =? from_row + direction) then
        t <- get_piece to_row to_col ;;
        ret (if t is None then true else false)
      else if (from_col =? to_col)
              && ((PieceColor_eqb pc WHITE && (from_row =? 6) && (to_row =? 4))
                  || (PieceColor_eqb pc BLACK && (from_row =? 1) && (to_row =? 3))) then
        mid <- get_piece (from_row + direction) from_col ;;
        match mid with
        | Some _ => ret false
        | None =>
            t <- get_piece to_row to_col ;;
            ret (if t is None then true else false)
        end
      else if (Z.abs (to_col - from_col) =? 1) && (to_row =? from_row + direction) then
        target <- get_piece to_row to_col ;;
        match target with
        | None => ret false
        | Some t =>
            tc <- attr color t ;;
            ret (negb (PieceColor_eqb tc pc))
        end
      else ret false
  end.

Definition _validate_knight (from_pos to_pos : Z * Z) : M bool :=
  let dr := Z.abs (to_pos.1 - from_pos.1) in
  let dc := Z.abs (to_pos.2 - from_pos.2) in
  ret (((dr =? 2) && (dc =? 1)) || ((dr =? 1) && (dc =? 2))).

(** The [while (r, c) != (tr, tc)] loop of the bishop rule.  [fuel] bounds
    the number of times the loop condition is evaluated; running out of
    it stands for a loop that does not end. *)
Fixpoint bishop_walk (fuel : nat) (r c tr tc row_step col_step : Z) : M bool :=
  match fuel with
  | O => diverge
  | S fuel' =>
      if (r =? tr) && (c =? tc) then ret true
      else
        p <- get_piece r c ;;
        match p with
        | Some _ => ret false
        | None => bishop_walk fuel' (r + row_step) (c + col_step) tr tc row_step col_step
        end
  end.

(** The loop starts on the square after [from_pos].  When the two deltas
    agree and are not zero it evaluates its condition [|tr - fr|] times.
    When both are zero both steps are -1 and the walk leaves the board
    after [fr] squares, never to meet the target: the fuel covers both. *)
Definition _validate_bishop (from_pos to_pos : Z * Z) : M bool :=
  let '(fr, fc) := from_pos in
  let '(tr, tc) := to_pos in
  if negb (Z.abs (tr - fr) =? Z.abs (tc - fc)) then ret false
  else
    let row_step := if fr <? tr then 1 else -1 in
    let col_step := if fc <? tc then 1 else -1 in
    bishop_walk (Z.to_nat (Z.max (Z.abs (tr - fr)) fr))
                (fr + row_step) (fc + col_step) tr tc row_step col_step.

Definition _validate_rook (from_pos to_pos : Z * Z) : M bool :=
  let '(fr, fc) := from_pos in
  let '(tr, tc) := to_pos in
  if negb (fr =? tr) && negb (fc =? tc) then ret false
  else if fr =? tr then
    path_clear (map (λ c, (fr, c)) (range (Z.min fc tc + 1) (Z.max fc tc)))
  else
    path_clear (map (λ r, (r, fc)) (range (Z.min fr tr + 1) (Z.max fr tr))).

Definition _validate_queen (from_pos to_pos : Z * Z) : M bool :=
  b <- _validate_bishop from_pos to_pos ;;
  if b then ret true else _validate_rook from_pos to_pos.

Definition _validate_king (from_pos to_pos : Z * Z) : M bool :=
  let '(fr, fc) := from_pos in
  let '(tr, tc) := to_pos in
  piece <- get_piece fr fc ;;
  if (Z.abs (tr - fr) <=? 1) && (Z.abs (tc - fc) <=? 1) then ret true
  else
    match piece with
    | None => raise AttributeError
    | Some p =>
        moved <- attr has_moved p ;;
        if negb moved && (fr =? tr) && (Z.abs (tc - fc) =? 2) then
          let rook_col := if tc <? fc then 0 else 7 in
          rook <- get_piece fr rook_col ;;
          match rook with
          | None => ret false
          | Some rk =>
              rt <- attr piece_type rk ;;
              if negb (PieceType_eqb rt ROOK) then ret false
              else
                rm <- attr has_moved rk ;;
                if rm then ret false
                else path_clear (map (λ c, (fr, c))
                                     (range (Z.min fc rook_col + 1) (Z.max fc rook_col)))
          end
        else ret false
    end.

(** ** ChessBoard.is_valid_move (main.py 113-135) *)

Definition is_valid_move (from_pos to_pos : Z * Z) : M bool :=
  piece <- get_piece from_pos.1 from_pos.2 ;;
  target <- get_piece to_pos.1 to_pos.2 ;;
  match piece with
  | None => ret false
  | Some p =>
      own <- match target with
             | None => ret false
             | Some t =>
                 tc <- attr color t ;;
                 pc <- attr color p ;;
                 ret (PieceColor_eqb tc pc)
             end ;;
      if own then ret false
      else
        pt <- attr piece_type p ;;
        if PieceType_eqb pt PAWN then _validate_pawn from_pos to_pos
        else if PieceType_eqb pt KNIGHT then _validate_knight from_pos to_pos
        else if PieceType_eqb pt BISHOP then _validate_bishop from_pos to_pos
        else if PieceType_eqb pt ROOK then _validate_rook from_pos to_pos
        else if PieceType_eqb pt QUEEN then _validate_queen from_pos to_pos
        else if PieceType_eqb pt KING then _validate_king from_pos to_pos
        else ret false
  end.

(** ** ChessBoard.move_piece (main.py 78-111) *)

Definition is_castling (pt : PieceType) (from_col to_col : Z) : bool :=
  PieceType_eqb pt KING && (Z.abs (from_col - to_col) =? 2).

Definition other (c : PieceColor) : PieceColor :=
  if PieceColor_eqb c WHITE then BLACK else WHITE.

(** The castling block (main.py 91-98): the rook is looked up by the
    king's destination column and put next to the king. *)
Definition castle_rook (from_row to_col : Z) : M unit :=
  let rook_col := if to_col =? 2 then 0 else 7 in
  let rook_target_col := if to_col =? 2 then 3 else 5 in
  rook <- get_piece from_row rook_col ;;
  set_piece from_row rook_col None ;;;
  set_piece from_row rook_target_col rook ;;;
  match rook with
  | None => raise AttributeError
  | Some rk => set_has_moved rk true
  end.

(** What [move_piece] does once its three guards have let the move of
    piece [p] through (main.py 91-111): castling, the move itself,
    promotion, the turn. *)
Definition execute_move (p : ref) (from_pos to_pos : Z * Z) : M bool :=
  let '(from_row, from_col) := from_pos in
  let '(to_row, to_col) := to_pos in
  pt <- attr piece_type p ;;
  (if is_castling pt from_col to_col then castle_rook from_row to_col else ret tt) ;;;
  set_piece from_row from_col None ;;;
  set_piece to_row to_col (Some p) ;;;
  set_has_moved p true ;;;
  pt' <- attr piece_type p ;;
  (if PieceType_eqb pt' PAWN && ((to_row =? 0) || (to_row =? 7))
   then set_piece_type p QUEEN
   else ret tt) ;;;
  turn <- get_turn ;;
  set_turn (other turn) ;;;
  ret true.

Definition move_piece (from_pos to_pos : Z * Z) : M bool :=
  piece <- get_piece from_pos.1 from_pos.2 ;;
  match piece with
  | None => ret false
  | Some p =>
      pc <- attr color p ;;
      turn <- get_turn ;;
      if negb (PieceColor_eqb pc turn) then ret false
      else
        ok <- is_valid_move from_pos to_pos ;;
        if negb ok then ret false
        else execute_move p from_pos to_pos
  end.

(** ** ChessBoard.__init__ and initialize_board (main.py 46-64) *)

(** [Piece(piece_type, color, position)]: a new object, not yet moved. *)
Definition Piece_new (t : PieceType) (c : PieceColor) (p : Z * Z) : M ref :=
  λ s, Ok (next_ref s)
          (mkChessBoard (board s) (current_turn s)
                        (<[next_ref s := mkPiece t c p false]> (pieces s))
                        (S (next_ref s))).

Fixpoint for_each {A} (l : list A) (body : A → M unit) : M unit :=
  match l with
  | [] => ret tt
  | x :: rest => body x ;;; for_each rest body
  end.

Definition back_row : list PieceType :=
  [ROOK; KNIGHT; BISHOP; QUEEN; KING; BISHOP; KNIGHT; ROOK].

Definition initialize_board : M unit :=
  for_each (range 0 8) (λ col,
    bp <- Piece_new PAWN BLACK (1, col) ;;
    board_set 1 col (Some bp) ;;;
    wp <- Piece_new PAWN WHITE (6, col) ;;
    board_set 6 col (Some wp)) ;;;
  for_each (range 0 8) (λ col,
    match getitem back_row col with
    | None => raise IndexError
    | Some t =>
        b <- Piece_new t BLACK (0, col) ;;
        board_set 0 col (Some b) ;;;
        match getitem back_row col with
        | None => raise IndexError
        | Some t' =>
            w <- Piece_new t' WHITE (7, col) ;;
            board_set 7 col (Some w)
        end
    end).

Definition ChessBoard_init : M unit :=
  (λ s, Ok tt (with_turn WHITE (with_board (replicate 8 (replicate 8 None)) s))) ;;;
  initialize_board.

(** The store before any piece exists.  No reference has been handed out, so
    what it holds is never read; it needs some value to be a total map. *)
Definition no_pieces : ChessBoard :=
  mkChessBoard [] WHITE (λ _, mkPiece PAWN WHITE (0, 0) false) 0%nat.

Definition state_of {A} (o : outcome A) (d : ChessBoard) : ChessBoard :=
  match o with
  | Ok _ s => s
  | Raise _ s => s
  | Diverge => d
  end.

(** The board of a new game: [ChessBoard()]. *)
Definition new_game : ChessBoard := state_of (ChessBoard_init no_pieces) no_pieces.

(** ** Attribute lookup on a [ChessBoard] object *)

(** The names a [ChessBoard] object answers to: the two attributes set by
    [__init__] and the methods of the class (main.py 44-224).  The class
    has no base but [object], whose names all start and end with two
    underscores. *)
Definition ChessBoard_names : list string :=
  ["board"; "current_turn"; "__init__"; "initialize_board"; "get_piece";
   "set_piece"; "move_piece"; "is_valid_move"; "_validate_pawn";
   "_validate_knight"; "_validate_bishop"; "_validate_rook";
   "_validate_queen"; "_validate_king"]%string.

(** [self.board.name]: the lookup that precedes a method call. *)
Definition getattr (name : string) : M unit :=
  λ s, if existsb (String.eqb name) ChessBoard_names then Ok tt s
       else Raise AttributeError s.

(** * Definitions used to state and prove the claims *)

(** ** Well-formed grids and the occupant of a square *)

(** The grid is eight rows of eight cells: [__init__] builds it so and no
    method changes its shape. *)
Definition wf_board (s : ChessBoard) : Prop :=
  length (board s) = 8%nat ∧ Forall (λ line, length line = 8%nat) (board s).

(** The occupant of the square [(row, col)] of the board; no square, no
    occupant. *)
Definition cell (s : ChessBoard) (row col : Z) : option ref :=
  if on_board row col then
    match board s !! Z.to_nat row with
    | Some line => match line !! Z.to_nat col with Some c => c | None => None end
    | None => None
    end
  else None.

(** ** Calls that only read *)

(** [m] returns normally from [s] and leaves it as it was. *)
Definition returns {A} (m : M A) (s : ChessBoard) : Prop :=
  ∃ a, m s = Ok a s.

(** The move is one [move_piece] lets through: a piece of the side to move
    stands on [from_pos] and the piece rule accepts the pair. *)
Definition legal (s : ChessBoard) (from_pos to_pos : Z * Z) (p : ref) : Prop :=
  cell s from_pos.1 from_pos.2 = Some p
  ∧ color (pieces s p) = current_turn s
  ∧ is_valid_move from_pos to_pos s = Ok true s.

(** ** Writes to the grid and to the pieces, as functions on states *)

Definition put_cell (i j : nat) (v : option ref) (g : list (list (option ref)))
  : list (list (option ref)) :=
  match g !! i with
  | Some line => <[i := <[j := v]> line]> g
  | None => g
  end.

Definition place (i j : nat) (v : option ref) (s : ChessBoard) : ChessBoard :=
  with_board (put_cell i j v (board s)) s.

Definition reposition (v : option ref) (pos : Z * Z) (s : ChessBoard) : ChessBoard :=
  match v with
  | Some p =>
      let o := pieces s p in
      with_pieces (<[p := mkPiece (piece_type o) (color o) pos (has_moved o)]> (pieces s)) s
  | None => s
  end.

Definition mark_moved (p : ref) (s : ChessBoard) : ChessBoard :=
  let o := pieces s p in
  with_pieces (<[p := mkPiece (piece_type o) (color o) (position o) true]> (pieces s)) s.

Definition crown (p : ref) (s : ChessBoard) : ChessBoard :=
  let o := pieces s p in
  with_pieces (<[p := mkPiece QUEEN (color o) (position o) (has_moved o)]> (pieces s)) s.

Definition at_index (i j : nat) (row col : Z) : bool :=
  on_board row col && (Z.to_nat row =? i)%nat && (Z.to_nat col =? j)%nat.

(** ** The body of [move_piece], as a function on states *)

(** The part of [execute_move] after the castling block. *)
Definition relocate (p : ref) (from_pos to_pos : Z * Z) : M bool :=
  set_piece from_pos.1 from_pos.2 None ;;;
  set_piece to_pos.1 to_pos.2 (Some p) ;;;
  set_has_moved p true ;;;
  pt' <- attr piece_type p ;;
  (if PieceType_eqb pt' PAWN && ((to_pos.1 =? 0) || (to_pos.1 =? 7))
   then set_piece_type p QUEEN
   else ret tt) ;;;
  turn <- get_turn ;;
  set_turn (other turn) ;;;
  ret true.

(** The state after [p] has been marked as moved, promoted if it is a pawn
    sent to row 0 or 7, and the turn has passed. *)
Definition settle (p : ref) (to_row : Z) (s : ChessBoard) : ChessBoard :=
  let s1 := mark_moved p s in
  let s2 := if PieceType_eqb (piece_type (pieces s1 p)) PAWN
               && ((to_row =? 0) || (to_row =? 7))
            then crown p s1 else s1 in
  with_turn (other (current_turn s2)) s2.

(** The state after the piece on [from_pos] has been lifted and put on the
    cell [(i, j)] that [to_pos] denotes. *)
Definition carried (p : ref) (from_pos to_pos : Z * Z) (i j : nat) (s : ChessBoard)
  : ChessBoard :=
  place i j (Some p)
        (reposition (Some p) to_pos
                    (place (Z.to_nat from_pos.1) (Z.to_nat from_pos.2) None s)).

(** The state after the castling block has moved the piece [rook] found on
    [(from_row, rook_col)] to [(from_row, rook_target_col)]. *)
Definition rook_carried (rook : option ref) (from_row rook_col rook_target_col : Z)
    (s : ChessBoard) : ChessBoard :=
  place (Z.to_nat from_row) (Z.to_nat rook_target_col) rook
        (reposition rook (from_row, rook_target_col)
                    (place (Z.to_nat from_row) (Z.to_nat rook_col) None s)).

(** The state in which [relocate] starts: the given one, or the one the
    castling block leaves. *)
Definition castled (s : ChessBoard) (p : ref) (from_pos to_pos : Z * Z)
    (s1 : ChessBoard) : Prop :=
  if is_castling (piece_type (pieces s p)) from_pos.2 to_pos.2 then
    let rook_col := if to_pos.2 =? 2 then 0 else 7 in
    let rook_target_col := if to_pos.2 =? 2 then 3 else 5 in
    ∃ rk, cell s from_pos.1 rook_col = Some rk
          ∧ s1 = mark_moved rk (rook_carried (Some rk) from_pos.1 rook_col
                                             rook_target_col s)
  else s1 = s.

(** The target square holds a piece of the mover's own colour. *)
Definition own_target (s : ChessBoard) (p : ref) (to_pos : Z * Z) : bool :=
  match cell s to_pos.1 to_pos.2 with
  | Some t => PieceColor_eqb (color (pieces s t)) (color (pieces s p))
  | None => false
  end.

(** The rule [is_valid_move] dispatches to. *)
Definition rule_of (pt : PieceType) : Z * Z → Z * Z → M bool :=
  match pt with
  | PAWN => _validate_pawn
  | KNIGHT => _validate_knight
  | BISHOP => _validate_bishop
  | ROOK => _validate_rook
  | QUEEN => _validate_queen
  | KING => _validate_king
  end.

(** ** The pawn rule *)

(** The pawn rule as the specification words it. *)
Definition pawn_direction (c : PieceColor) : Z :=
  match c with WHITE => -1 | BLACK => 1 end.

Definition pawn_start_row (c : PieceColor) : Z :=
  match c with WHITE => 6 | BLACK => 1 end.

Definition pawn_rule (s : ChessBoard) (p : ref) (from_pos to_pos : Z * Z) : Prop :=
  let c := color (pieces s p) in
  let d := pawn_direction c in
  (* (a) same column, one step in direction, destination empty *)
  (to_pos.2 = from_pos.2 ∧ to_pos.1 = from_pos.1 + d
   ∧ cell s to_pos.1 to_pos.2 = None)
  (* (b) same column, two steps in direction, from the starting rank,
         intermediate and destination squares empty *)
  ∨ (to_pos.2 = from_pos.2 ∧ to_pos.1 = from_pos.1 + 2 * d
     ∧ from_pos.1 = pawn_start_row c
     ∧ cell s (from_pos.1 + d) from_pos.2 = None
     ∧ cell s to_pos.1 to_pos.2 = None)
  (* (c) diagonal one step in direction, destination held by an opposing piece *)
  ∨ (to_pos.1 = from_pos.1 + d
     ∧ (to_pos.2 = from_pos.2 + 1 ∨ to_pos.2 = from_pos.2 - 1)
     ∧ ∃ q, cell s to_pos.1 to_pos.2 = Some q ∧ color (pieces s q) ≠ c).

(** ** Sequences of calls and the states a game can reach *)

(** The states of a game: that of [ChessBoard()], and those in which a
    call of [move_piece] returns. *)
Inductive reachable : ChessBoard → Prop :=
  | reach_new : reachable new_game
  | reach_move s from_pos to_pos b s' :
      reachable s → move_piece from_pos to_pos s = Ok b s' → reachable s'.

(** No pawn stands on row 0 or row 7. *)
Definition back_rows_pawn_free (s : ChessBoard) : Prop :=
  ∀ row col q, cell s row col = Some q → row = 0 ∨ row = 7 →
               piece_type (pieces s q) ≠ PAWN.

(** A king that has not moved stands on column 4. *)
Definition unmoved_kings_home (s : ChessBoard) : Prop :=
  ∀ row col q, cell s row col = Some q → piece_type (pieces s q) = KING →
               has_moved (pieces s q) = false → col = 4.

(** A check of every square of the board. *)
Definition all_cells (P : Z → Z → ref → bool) (s : ChessBoard) : bool :=
  forallb (λ row,
    forallb (λ col, match cell s row col with
                    | Some q => P row col q
                    | None => true
                    end) (range 0 8)) (range 0 8).

(** Playing a list of moves, each of which has to return. *)
Fixpoint plays (moves : list ((Z * Z) * (Z * Z))) (s : ChessBoard) : option ChessBoard :=
  match moves with
  | [] => Some s
  | m :: rest =>
      match move_piece m.1 m.2 s with
      | Ok _ s' => plays rest s'
      | _ => None
      end
  end.

(** ** Three games *)

(** A game in which the White a-pawn has taken its way to (1,1) and can
    capture the rook on (0,0). *)
Definition promotion_moves : list ((Z * Z) * (Z * Z)) :=
  [((6, 0), (4, 0)); ((1, 1), (3, 1)); ((4, 0), (3, 1)); ((1, 0), (2, 0));
   ((3, 1), (2, 0)); ((0, 2), (1, 1)); ((2, 0), (1, 1)); ((1, 7), (2, 7))].

Definition before_promotion : ChessBoard :=
  default new_game (plays promotion_moves new_game).

(** A game in which White has cleared (7,5) and (7,6) and may castle on
    the king's side. *)
Definition castling_moves : list ((Z * Z) * (Z * Z)) :=
  [((7, 6), (5, 5)); ((1, 0), (2, 0)); ((6, 4), (5, 4)); ((2, 0), (3, 0));
   ((7, 5), (6, 4)); ((3, 0), (4, 0))].

Definition before_castling : ChessBoard :=
  default new_game (plays castling_moves new_game).

(** A hand-built board, not a state of any game: the new game with (7,1)
    and (7,2) cleared and the White king, still unmoved, put on (7,3). *)
Definition king_off_home : ChessBoard :=
  place 7 3 (Some 25%nat)
        (place 7 4 None (place 7 2 None (place 7 1 None new_game))).

(** The new game after the White pawn went from (6,4) to (4,4). *)
Definition after_first_move : ChessBoard :=
  default new_game (plays [((6, 4), (4, 4))] new_game).

(** ** The [has_moved] flags never go back *)

(** Every flag that is set in [s] is set in [s']. *)
Definition flags_kept (s s' : ChessBoard) : Prop :=
  ∀ r, has_moved (pieces s r) = true → has_moved (pieces s' r) = true.

(** The grid of [s'] has the shape of the grid of [s]. *)
Definition shape_kept (s s' : ChessBoard) : Prop :=
  wf_board s → wf_board s'.

(** Whatever state [m] ends in, returning or raising, is related by [R]
    to the state it started in. *)
Definition keeps {A} (R : ChessBoard → ChessBoard → Prop) (m : M A) : Prop :=
  ∀ s, match m s with
       | Ok _ s' | Raise _ s' => R s s'
       | Diverge => True
       end.

(** The engine's operations, and a run of calls; a call that raises leaves
    the state it had reached, and the run goes on from there. *)
Inductive op :=
  | Call_get_piece (row col : Z)
  | Call_is_valid_move (from_pos to_pos : Z * Z)
  | Call_move_piece (from_pos to_pos : Z * Z).

Definition call (o : op) : M unit :=
  match o with
  | Call_get_piece row col => get_piece row col ;;; ret tt
  | Call_is_valid_move from_pos to_pos => is_valid_move from_pos to_pos ;;; ret tt
  | Call_move_piece from_pos to_pos => move_piece from_pos to_pos ;;; ret tt
  end.

Fixpoint run (calls : list op) (s : ChessBoard) : option ChessBoard :=
  match calls with
  | [] => Some s
  | o :: rest =>
      match call o s with
      | Ok _ s' | Raise _ s' => run rest s'
      | Diverge => None
      end
  end.

(** A call on a well-formed board ends: the loops of the piece rules are
    bounded and the body of [move_piece] has none. *)
Definition total {A} (m : M A) : Prop := ∀ s, m s ≠ Diverge.

(** ** The other piece rules, as conditions on the board *)

(** Every square of [sqs] is empty. *)
Definition all_empty (s : ChessBoard) (sqs : list (Z * Z)) : Prop :=
  ∀ sq, In sq sqs → cell s sq.1 sq.2 = None.

Definition knight_rule (from_pos to_pos : Z * Z) : Prop :=
  let dr := Z.abs (to_pos.1 - from_pos.1) in
  let dc := Z.abs (to_pos.2 - from_pos.2) in
  (dr = 2 ∧ dc = 1) ∨ (dr = 1 ∧ dc = 2).

(** Same row or same column, and nothing strictly between. *)
Definition rook_rule (s : ChessBoard) (from_pos to_pos : Z * Z) : Prop :=
  (from_pos.1 = to_pos.1
   ∧ ∀ c, Z.min from_pos.2 to_pos.2 < c < Z.max from_pos.2 to_pos.2 →
          cell s from_pos.1 c = None)
  ∨ (from_pos.1 ≠ to_pos.1 ∧ from_pos.2 = to_pos.2
     ∧ ∀ r, Z.min from_pos.1 to_pos.1 < r < Z.max from_pos.1 to_pos.1 →
            cell s r from_pos.2 = None).

(** Equal deltas, and nothing strictly between on the diagonal. *)
Definition bishop_rule (s : ChessBoard) (from_pos to_pos : Z * Z) : Prop :=
  Z.abs (to_pos.1 - from_pos.1) = Z.abs (to_pos.2 - from_pos.2)
  ∧ ∀ k, 0 < k < Z.abs (to_pos.1 - from_pos.1) →
         cell s (from_pos.1 + k * Z.sgn (to_pos.1 - from_pos.1))
                (from_pos.2 + k * Z.sgn (to_pos.2 - from_pos.2)) = None.

(** One step in any direction; or two columns along the row by a king that
    has not moved, towards a corner that holds a rook that has not moved,
    with nothing between the king and that corner. *)
Definition king_rule (s : ChessBoard) (p : ref) (from_pos to_pos : Z * Z) : Prop :=
  (Z.abs (to_pos.1 - from_pos.1) ≤ 1 ∧ Z.abs (to_pos.2 - from_pos.2) ≤ 1)
  ∨ (has_moved (pieces s p) = false
     ∧ from_pos.1 = to_pos.1
     ∧ Z.abs (to_pos.2 - from_pos.2) = 2
     ∧ let rook_col := if to_pos.2 <? from_pos.2 then 0 else 7 in
       (∃ rk, cell s from_pos.1 rook_col = Some rk
              ∧ piece_type (pieces s rk) = ROOK
              ∧ has_moved (pieces s rk) = false)
       ∧ ∀ c, Z.min from_pos.2 rook_col < c < Z.max from_pos.2 rook_col →
              cell s from_pos.1 c = None).

(** ** The turn *)

(** The outcome [o], with the turn set to [c] in the state it ends in. *)
Definition with_turn_outcome {A} (c : PieceColor) (o : outcome A) : outcome A :=
  match o with
  | Ok a s => Ok a (with_turn c s)
  | Raise e s => Raise e (with_turn c s)
  | Diverge => Diverge
  end.

(** [m] does not look at the turn. *)
Definition turn_blind {A} (m : M A) : Prop :=
  ∀ s c, m (with_turn c s) = with_turn_outcome c (m s).

(** ** Games played on the board *)

(** The states of a game in which every call of [move_piece] names two
    squares of the board, as the calls made for mouse clicks do. *)
Inductive in_play : ChessBoard → Prop :=
  | play_new : in_play new_game
  | play_move s from_pos to_pos b s' :
      in_play s →
      on_board from_pos.1 from_pos.2 = true → on_board to_pos.1 to_pos.2 = true →
      move_piece from_pos to_pos s = Ok b s' → in_play s'.

(** The [position] of every piece on the board is the square it stands on. *)
Definition positions_agree (s : ChessBoard) : Prop :=
  ∀ row col q, cell s row col = Some q → position (pieces s q) = (row, col).

(** No piece changed colour from [s] to [s'], and the only change of kind
    is from pawn to queen. *)
Definition kinds_kept (s s' : ChessBoard) : Prop :=
  ∀ q, color (pieces s' q) = color (pieces s q)
       ∧ (piece_type (pieces s' q) = piece_type (pieces s q)
          ∨ (piece_type (pieces s q) = PAWN ∧ piece_type (pieces s' q) = QUEEN)).

(** Two kings of one colour on the board are one piece. *)
Definition one_king (s : ChessBoard) : Prop :=
  ∀ row col q row' col' q',
    cell s row col = Some q → cell s row' col' = Some q' →
    piece_type (pieces s q) = KING → piece_type (pieces s q') = KING →
    color (pieces s q) = color (pieces s q') → q = q'.

(** Every move of the list names two squares of the board. *)
Definition on_board_moves (moves : list ((Z * Z) * (Z * Z))) : bool :=
  forallb (λ m, on_board m.1.1 m.1.2 && on_board m.2.1 m.2.2) moves.

(** ** Piece.__str__ (main.py 30-41) and the image keys (main.py 245-261) *)

(** The dictionary [piece_map] of [__str__]. *)
Definition piece_map : list (PieceType * string) :=
  [(KING, "K"); (QUEEN, "Q"); (ROOK, "R"); (BISHOP, "B"); (KNIGHT, "N");
   (PAWN, "P")]%string.

(** [d[k]] on a dictionary written as a list of pairs; [None] stands for
    [KeyError]. *)
Fixpoint dict_get {V} (d : list (PieceType * V)) (k : PieceType) : option V :=
  match d with
  | [] => None
  | (k', v) :: rest => if PieceType_eqb k' k then Some v else dict_get rest k
  end.

Definition Piece_str (p : Piece) : option string :=
  let color_char := if PieceColor_eqb (color p) WHITE then "W"%string else "B"%string in
  match dict_get piece_map (piece_type p) with
  | Some letter => Some (color_char ++ letter)%string
  | None => None
  end.

(** The keys of the dictionary [pieces] of [_load_images], which become the
    keys of [self.images]. *)
Definition image_keys : list string :=
  ["WK"; "WQ"; "WR"; "WB"; "WN"; "WP"; "BK"; "BQ"; "BR"; "BB"; "BN"; "BP"]%string.

(** ** ChessGame (main.py 227-347): the fields the click handler works on *)

Record ChessGame := mkChessGame {
  selected_piece : option (Z * Z);
  game_over : bool;
  message : string
}.

Definition screen_size : Z := 640.
Definition square_size : Z := screen_size / 8.
Definition computer_player : PieceColor := BLACK.

(** A method of the game ends with the game and the board it has reached. *)
Inductive game_outcome (A : Type) :=
  | GOk (a : A) (g : ChessGame) (s : ChessBoard)
  | GRaise (e : exn) (g : ChessGame) (s : ChessBoard)
  | GDiverge.

Arguments GOk {A} a g s.
Arguments GRaise {A} e g s.
Arguments GDiverge {A}.

Definition GM (A : Type) : Type := ChessGame → ChessBoard → game_outcome A.

Definition gret {A} (a : A) : GM A := λ g s, GOk a g s.

Definition gbind {A B} (m : GM A) (f : A → GM B) : GM B :=
  λ g s, match m g s with
         | GOk a g' s' => f a g' s'
         | GRaise e g' s' => GRaise e g' s'
         | GDiverge => GDiverge
         end.

(** A call into [self.board]. *)
Definition on_the_board {A} (m : M A) : GM A :=
  λ g s, match m s with
         | Ok a s' => GOk a g s'
         | Raise e s' => GRaise e g s'
         | Diverge => GDiverge
         end.

Definition get_game : GM ChessGame := λ g s, GOk g g s.

Definition set_selected_piece (v : option (Z * Z)) : GM unit :=
  λ g s, GOk tt (mkChessGame v (game_over g) (message g)) s.

Definition set_message (v : string) : GM unit :=
  λ g s, GOk tt (mkChessGame (selected_piece g) (game_over g) v) s.

Definition set_game_over (v : bool) : GM unit :=
  λ g s, GOk tt (mkChessGame (selected_piece g) v (message g)) s.

Notation "x <~ m ;; k" := (gbind m (λ x, k))
  (at level 100, m at next level, right associativity).
Notation "m ;;~ k" := (gbind m (λ _, k))
  (at level 100, right associativity).

Section Game.

(** [ChessBoard] defines none of the three methods the game calls on it
    (see [getattr]); what they would do once found, and what
    [random.choice] picks, is left open. *)
Variable is_checkmate : M bool.
Variable is_stalemate : M bool.
Variable get_all_valid_moves : PieceColor → M (list ((Z * Z) * (Z * Z))).
Variable random_choice : list ((Z * Z) * (Z * Z)) → (Z * Z) * (Z * Z).

(** ChessGame.check_game_state (main.py 339-347) *)
Definition check_game_state : GM unit :=
  mate <~ on_the_board (getattr "is_checkmate" ;;; is_checkmate) ;;
  if mate then
    turn <~ on_the_board get_turn ;;
    let winner := if PieceColor_eqb turn BLACK then "White"%string else "Black"%string in
    set_message (winner ++ " wins by checkmate!")%string ;;~
    set_game_over true
  else
    stale <~ on_the_board (getattr "is_stalemate" ;;; is_stalemate) ;;
    if stale then
      set_message "Stalemate! It's a draw."%string ;;~
      set_game_over true
    else gret tt.

(** ChessGame.computer_move (main.py 331-337) *)
Definition computer_move : GM unit :=
  moves <~ on_the_board (getattr "get_all_valid_moves" ;;;
                         get_all_valid_moves computer_player) ;;
  match moves with
  | [] => gret tt
  | _ :: _ =>
      let '(from_pos, to_pos) := random_choice moves in
      on_the_board (move_piece from_pos to_pos) ;;~
      check_game_state
  end.

(** The square a mouse position falls on, as (row, column). *)
Definition click_square (pos : Z * Z) : Z * Z :=
  (pos.2 / square_size, pos.1 / square_size).

(** ChessGame.handle_click (main.py 311-329) *)
Definition handle_click (pos : Z * Z) : GM unit :=
  g <~ get_game ;;
  if game_over g then gret tt
  else
    let '(row, col) := click_square pos in
    match selected_piece g with
    | Some sel =>
        moved <~ on_the_board (move_piece sel (row, col)) ;;
        if moved then
          set_selected_piece None ;;~
          check_game_state ;;~
          g' <~ get_game ;;
          if negb (game_over g') then computer_move else gret tt
        else
          piece <~ on_the_board (get_piece row col) ;;
          match piece with
          | None => set_selected_piece None
          | Some p =>
              pc <~ on_the_board (attr color p) ;;
              turn <~ on_the_board get_turn ;;
              set_selected_piece (if PieceColor_eqb pc turn then Some (row, col) else None)
          end
    | None =>
        piece <~ on_the_board (get_piece row col) ;;
        match piece with
        | None => gret tt
        | Some p =>
            pc <~ on_the_board (attr color p) ;;
            turn <~ on_the_board get_turn ;;
            if PieceColor_eqb pc turn then set_selected_piece (Some (row, col))
            else gret tt
        end
    end.

End Game.

(** A game at its start, with nothing selected, and with the pawn on (6,4)
    selected; the three methods the board lacks and the random choice are
    given some value, on which nothing depends. *)
Definition fresh_game : ChessGame := mkChessGame None false "".

Definition pawn_selected : ChessGame := mkChessGame (Some (6, 4)) false "".

Definition click_on :=
  handle_click (ret false) (ret false) (λ _, ret []) (λ _, ((0, 0), (0, 0))).

(** * Lemmas *)

(** ** Basic facts *)

Lemma PieceColor_eqb_eq a b : PieceColor_eqb a b = true ↔ a = b.
Proof. destruct a, b; simpl; split; congruence. Qed.

Lemma PieceType_eqb_eq a b : PieceType_eqb a b = true ↔ a = b.
Proof. destruct a, b; simpl; split; congruence. Qed.

Lemma PieceColor_eqb_refl a : PieceColor_eqb a a = true.
Proof. by destruct a. Qed.

Lemma on_board_spec row col :
  on_board row col = true ↔ 0 ≤ row < 8 ∧ 0 ≤ col < 8.
Proof. unfold on_board. rewrite !andb_true_iff, !Z.leb_le, !Z.ltb_lt. lia. Qed.

Lemma on_board_false row col :
  on_board row col = false ↔ ¬ (0 ≤ row < 8 ∧ 0 ≤ col < 8).
Proof. rewrite <- on_board_spec. destruct (on_board row col); split; congruence. Qed.

Lemma py_index_nonneg n i :
  0 ≤ i < Z.of_nat n → py_index n i = Some (Z.to_nat i).
Proof.
  intros H. unfold py_index.
  destruct (Z.leb_spec 0 i), (Z.ltb_spec i (Z.of_nat n)); simpl; try lia; done.
Qed.

Lemma py_index_lt n i k : py_index n i = Some k → (k < n)%nat.
Proof.
  unfold py_index.
  destruct (Z.leb_spec 0 i), (Z.ltb_spec i (Z.of_nat n)),
    (Z.leb_spec (- Z.of_nat n) i), (Z.ltb_spec i 0); simpl; intros [= <-]; lia.
Qed.

Lemma py_index_inv n x i :
  py_index n x = Some i →
  (0 ≤ x < Z.of_nat n ∧ i = Z.to_nat x)
  ∨ (- Z.of_nat n ≤ x < 0 ∧ i = Z.to_nat (x + Z.of_nat n)).
Proof.
  unfold py_index.
  destruct (Z.leb_spec 0 x), (Z.ltb_spec x (Z.of_nat n)),
    (Z.leb_spec (- Z.of_nat n) x), (Z.ltb_spec x 0); simpl; intros [= <-]; lia.
Qed.

Lemma wf_board_line s i :
  wf_board s → (i < 8)%nat →
  ∃ line, board s !! i = Some line ∧ length line = 8%nat.
Proof.
  intros [Hlen Hall] Hi.
  destruct (lookup_lt_is_Some_2 (board s) i) as [line Hline]; [lia|].
  exists line. split; [done|].
  rewrite Forall_forall in Hall. apply Hall.
  apply list_elem_of_In. by eapply list_elem_of_lookup_2.
Qed.

Lemma get_piece_off s row col :
  on_board row col = false → get_piece row col s = Ok None s.
Proof. intros H. unfold get_piece. by rewrite H. Qed.

Lemma get_piece_ok s row col :
  wf_board s → get_piece row col s = Ok (cell s row col) s.
Proof.
  intros Hwf. unfold get_piece, cell.
  destruct (on_board row col) eqn:Hon; [|done].
  apply on_board_spec in Hon as [Hr Hc].
  destruct (wf_board_line s (Z.to_nat row) Hwf) as (line & Hline & Hlen); [lia|].
  unfold board_get, getitem.
  rewrite (proj1 Hwf), py_index_nonneg, Hline by lia.
  rewrite Hlen, py_index_nonneg by lia.
  destruct (lookup_lt_is_Some_2 line (Z.to_nat col)) as [c Hcell]; [lia|].
  by rewrite Hcell.
Qed.

Lemma PieceColor_eqb_neq a b : PieceColor_eqb a b = false ↔ a ≠ b.
Proof. destruct a, b; simpl; split; congruence. Qed.

(** ** The monad, and calls that only read *)

Lemma returns_ret {A} (a : A) s : returns (ret a) s.
Proof. by exists a. Qed.

Lemma returns_bind {A B} (m : M A) (f : A → M B) s :
  returns m s → (∀ a, m s = Ok a s → returns (f a) s) → returns (bind m f) s.
Proof.
  intros [a Ha] Hf. destruct (Hf a Ha) as [b Hb].
  exists b. unfold bind. by rewrite Ha.
Qed.

Lemma bind_ok {A B} (m : M A) (f : A → M B) s a s' :
  m s = Ok a s' → bind m f s = f a s'.
Proof. intros H. unfold bind. by rewrite H. Qed.

Lemma bind_assoc {A B C} (m : M A) (f : A → M B) (g : B → M C) s :
  bind (bind m f) g s = bind m (λ x, bind (f x) g) s.
Proof. unfold bind. by destruct (m s). Qed.

Lemma returns_get_piece s row col : wf_board s → returns (get_piece row col) s.
Proof. intros Hwf. eexists. by apply get_piece_ok. Qed.

Lemma returns_attr {A} (f : Piece → A) p s : returns (attr f p) s.
Proof. by eexists. Qed.

Create HintDb reads.
#[local] Hint Resolve returns_ret returns_get_piece returns_attr : reads.

(** Steps through a read: [get_piece] on a well-formed board yields the
    occupant and the same state. *)
Ltac read_step :=
  unfold returns;
  repeat first
    [ rewrite bind_assoc
    | rewrite (bind_ok _ _ _ _ _ (get_piece_ok _ _ _ ltac:(eassumption)))
    | rewrite (bind_ok (attr _ _) _ _ _ _ eq_refl)
    | rewrite (bind_ok (ret _) _ _ _ _ eq_refl)
    | rewrite (bind_ok get_turn _ _ _ _ eq_refl) ];
  try match goal with
      | |- ∃ a, ?m ?s = Ok a ?s => change (returns m s)
      end.

Lemma returns_path_clear s sqs : wf_board s → returns (path_clear sqs) s.
Proof.
  intros Hwf. induction sqs as [|[r c] rest IH]; simpl; [auto with reads|].
  read_step. destruct (cell s r c); auto with reads.
Qed.

#[local] Hint Resolve returns_path_clear : reads.

(** Turns a boolean test on integers, as a hypothesis, into the
    proposition it decides. *)
Ltac bool_hyp H :=
  rewrite ?orb_false_r, ?andb_true_r in H;
  repeat first
    [ rewrite andb_true_iff in H | rewrite andb_false_iff in H
    | rewrite orb_true_iff in H | rewrite orb_false_iff in H
    | rewrite negb_true_iff in H | rewrite negb_false_iff in H
    | rewrite Z.eqb_eq in H | rewrite Z.eqb_neq in H
    | rewrite Nat.eqb_eq in H | rewrite Nat.eqb_neq in H
    | rewrite Z.leb_le in H | rewrite Z.leb_gt in H
    | rewrite Z.ltb_lt in H | rewrite Z.ltb_ge in H ].

(** ** Relations that every call keeps *)

Create HintDb keeps.

Section Keeps.
Context (R : ChessBoard → ChessBoard → Prop).
Hypothesis R_refl : ∀ s, R s s.
Hypothesis R_trans : ∀ s1 s2 s3, R s1 s2 → R s2 s3 → R s1 s3.

Lemma keeps_ret {A} (a : A) : keeps R (ret a).
Proof. intros s. apply R_refl. Qed.

Lemma keeps_raise {A} e : keeps R (@raise A e).
Proof. intros s. apply R_refl. Qed.

Lemma keeps_diverge {A} : keeps R (@diverge A).
Proof. by intros s. Qed.

Lemma keeps_bind {A B} (m : M A) (f : A → M B) :
  keeps R m → (∀ a, keeps R (f a)) → keeps R (bind m f).
Proof.
  intros Hm Hf s. unfold bind. specialize (Hm s).
  destruct (m s) as [a s1|e s1|]; [|done..].
  specialize (Hf a s1). destruct (f a s1); eauto.
Qed.

Lemma keeps_attr {A} (f : Piece → A) p : keeps R (attr f p).
Proof. intros s. apply R_refl. Qed.

Lemma keeps_get_turn : keeps R get_turn.
Proof. intros s. apply R_refl. Qed.

Lemma keeps_get_piece row col : keeps R (get_piece row col).
Proof.
  intros s. unfold get_piece, board_get.
  destruct (on_board row col); [|apply R_refl].
  destruct (getitem (board s) row) as [line|]; [|apply R_refl].
  destruct (getitem line col); apply R_refl.
Qed.

Hint Resolve keeps_ret keeps_raise keeps_diverge keeps_attr keeps_get_turn
  keeps_get_piece : keeps.

Ltac keeps_step :=
  repeat first
    [ progress auto with keeps
    | apply keeps_bind; [|intros ?]
    | match goal with
      | |- keeps _ (match ?x with _ => _ end) => destruct x
      | |- keeps _ (if ?x then _ else _) => destruct x
      | |- keeps _ (let '(_, _) := ?x in _) => destruct x
      end ].

Lemma keeps_path_clear sqs : keeps R (path_clear sqs).
Proof. induction sqs as [|[r c] rest IH]; simpl; keeps_step. Qed.

Lemma keeps_bishop_walk fuel r c tr tc rs cs :
  keeps R (bishop_walk fuel r c tr tc rs cs).
Proof. revert r c. induction fuel as [|fuel IH]; intros r c; simpl; keeps_step. Qed.

Hint Resolve keeps_path_clear keeps_bishop_walk : keeps.

Lemma keeps_is_valid_move from_pos to_pos : keeps R (is_valid_move from_pos to_pos).
Proof.
  unfold is_valid_move, _validate_queen, _validate_pawn, _validate_knight,
    _validate_bishop, _validate_rook, _validate_king.
  destruct from_pos as [fr fc], to_pos as [tr tc]. keeps_step.
Qed.

Hypothesis R_set_position : ∀ p v, keeps R (set_position p v).
Hypothesis R_set_has_moved : ∀ p, keeps R (set_has_moved p true).
Hypothesis R_set_piece_type : ∀ p v, keeps R (set_piece_type p v).
Hypothesis R_board_set : ∀ row col v, keeps R (board_set row col v).
Hypothesis R_set_turn : ∀ c, keeps R (set_turn c).

Lemma keeps_set_piece row col v : keeps R (set_piece row col v).
Proof. unfold set_piece. keeps_step. Qed.

Hint Resolve keeps_is_valid_move keeps_set_piece R_set_has_moved
  R_set_piece_type R_set_turn : keeps.

Lemma keeps_move_piece from_pos to_pos : keeps R (move_piece from_pos to_pos).
Proof.
  unfold move_piece, execute_move, castle_rook.
  destruct from_pos as [fr fc], to_pos as [tr tc]. keeps_step.
Qed.

Lemma keeps_call o : keeps R (call o).
Proof.
  destruct o; simpl; apply keeps_bind;
    auto using keeps_get_piece, keeps_is_valid_move, keeps_move_piece, keeps_ret.
Qed.

Lemma keeps_run calls s s' : run calls s = Some s' → R s s'.
Proof.
  revert s. induction calls as [|o rest IH]; intros s; simpl.
  - intros [= <-]. apply R_refl.
  - pose proof (keeps_call o s) as Ho.
    destruct (call o s) as [[] s1|e s1|]; [| |done]; intros Hrun; eauto.
Qed.
End Keeps.

Lemma total_bind {A B} (m : M A) (f : A → M B) :
  total m → (∀ a, total (f a)) → total (bind m f).
Proof.
  intros Hm Hf s. unfold bind. specialize (Hm s).
  destruct (m s) as [a s1| |]; [apply Hf|done..].
Qed.

Lemma total_get_piece row col : total (get_piece row col).
Proof.
  intros s. unfold get_piece, board_get. by repeat case_match.
Qed.

Lemma total_set_piece row col v : total (set_piece row col v).
Proof.
  unfold set_piece. apply total_bind; [by destruct v|].
  intros _ s. unfold board_set. by repeat case_match.
Qed.

(** ** The piece rules return *)

(** The bishop's walk ends when the target lies [k] steps ahead and the
    fuel exceeds [k]. *)
Lemma returns_bishop_walk s fuel k r c tr tc rs cs :
  wf_board s →
  tr = r + Z.of_nat k * rs → tc = c + Z.of_nat k * cs → (k < fuel)%nat →
  returns (bishop_walk fuel r c tr tc rs cs) s.
Proof.
  intros Hwf. revert k r c.
  induction fuel as [|fuel IH]; intros k r c Hr Hc Hk; [lia|].
  simpl. destruct (Z.eqb_spec r tr) as [Er|Er], (Z.eqb_spec c tc) as [Ec|Ec];
    simpl; [auto with reads|..]; read_step;
    (destruct (cell s r c); [apply returns_ret|]);
    (destruct k as [|k]; [simpl in Hr, Hc; lia|]);
    apply (IH k); lia.
Qed.

Lemma returns_validate_bishop s fr fc tr tc :
  wf_board s → (fr, fc) ≠ (tr, tc) →
  returns (_validate_bishop (fr, fc) (tr, tc)) s.
Proof.
  intros Hwf Hne. unfold _validate_bishop.
  destruct (Z.eqb_spec (Z.abs (tr - fr)) (Z.abs (tc - fc))) as [E|E]; simpl;
    [|apply returns_ret].
  assert (Hd : 0 < Z.abs (tr - fr)).
  { destruct (Z.eq_dec fr tr), (Z.eq_dec fc tc); try lia. congruence. }
  apply (returns_bishop_walk s _ (Z.to_nat (Z.abs (tr - fr) - 1))); [done|..].
  - destruct (Z.ltb_spec fr tr); lia.
  - destruct (Z.ltb_spec fc tc); lia.
  - lia.
Qed.

(** The fuel of [_validate_bishop] is enough: more of it gives the same
    outcome, on every state. *)
Lemma bishop_walk_stable s n m r c tr tc rs cs :
  (n ≤ m)%nat → bishop_walk n r c tr tc rs cs s ≠ Diverge →
  bishop_walk m r c tr tc rs cs s = bishop_walk n r c tr tc rs cs s.
Proof.
  revert m r c. induction n as [|n IH]; intros m r c Hnm; [done|].
  destruct m as [|m]; [lia|]. simpl.
  destruct ((r =? tr) && (c =? tc)); [done|]. unfold bind.
  destruct (get_piece r c s) as [[q|] s1|e s1|] eqn:Hget; try done.
  pose proof (keeps_get_piece eq (λ s, eq_refl) r c s) as Hsame.
  rewrite Hget in Hsame. subst s1. apply IH. lia.
Qed.

Lemma bishop_walk_lost s n r c tr tc cs :
  r < 0 → r < tr → bishop_walk n r c tr tc (-1) cs s = Diverge.
Proof.
  revert r c. induction n as [|n IH]; intros r c Hr Htr; [done|]. simpl.
  destruct (Z.eqb_spec r tr); [lia|]. cbn [andb]. unfold bind.
  rewrite get_piece_off by (apply on_board_false; lia).
  apply IH; lia.
Qed.

Lemma bishop_walk_degenerate s k n r c tr tc cs :
  r = Z.of_nat k - 1 → r < tr → (k ≤ n)%nat →
  bishop_walk n r c tr tc (-1) cs s = bishop_walk k r c tr tc (-1) cs s.
Proof.
  revert n r c. induction k as [|k IH]; intros n r c Hr Htr Hkn.
  - rewrite bishop_walk_lost by lia. done.
  - destruct n as [|n]; [lia|]. simpl.
    destruct (Z.eqb_spec r tr); [lia|]. cbn [andb]. unfold bind.
    destruct (get_piece r c s) as [[q|] s1|e s1|] eqn:Hget; try done.
    pose proof (keeps_get_piece eq (λ s, eq_refl) r c s) as Hsame.
    rewrite Hget in Hsame. subst s1. apply IH; lia.
Qed.

Lemma bishop_walk_ends s fuel k r c tr tc rs cs :
  tr = r + Z.of_nat k * rs → tc = c + Z.of_nat k * cs → (k < fuel)%nat →
  bishop_walk fuel r c tr tc rs cs s ≠ Diverge.
Proof.
  revert k r c. induction fuel as [|fuel IH]; intros k r c Hr Hc Hk; [lia|].
  simpl. destruct ((r =? tr) && (c =? tc)) eqn:Hat; [done|].
  unfold bind. pose proof (total_get_piece r c s) as Htotal.
  pose proof (keeps_get_piece eq (λ s, eq_refl) r c s) as Hsame.
  destruct (get_piece r c s) as [[q|] s1|e s1|]; [done| |done|done].
  subst s1. destruct k as [|k].
  - bool_hyp Hat. simpl in Hr, Hc. lia.
  - apply (IH k); lia.
Qed.

Lemma bishop_fuel_adequate s fr fc tr tc extra :
  Z.abs (tr - fr) = Z.abs (tc - fc) →
  let row_step := if fr <? tr then 1 else -1 in
  let col_step := if fc <? tc then 1 else -1 in
  let fuel := Z.to_nat (Z.max (Z.abs (tr - fr)) fr) in
  bishop_walk (fuel + extra) (fr + row_step) (fc + col_step) tr tc row_step col_step s
  = bishop_walk fuel (fr + row_step) (fc + col_step) tr tc row_step col_step s.
Proof.
  intros Hdiag. cbn zeta.
  destruct (Z.eq_dec tr fr) as [->|Hne].
  - (* both deltas are zero *)
    rewrite Z.ltb_irrefl. replace (Z.abs (fr - fr)) with 0 by lia.
    destruct (Z.le_gt_cases 0 fr).
    + apply bishop_walk_degenerate; lia.
    + rewrite !bishop_walk_lost by lia. done.
  - apply bishop_walk_stable; [lia|].
    apply (bishop_walk_ends s _ (Z.to_nat (Z.abs (tr - fr) - 1))).
    + destruct (Z.ltb_spec fr tr); lia.
    + destruct (Z.ltb_spec fc tc); lia.
    + lia.
Qed.

Lemma returns_validate_rook s from_pos to_pos :
  wf_board s → returns (_validate_rook from_pos to_pos) s.
Proof.
  intros Hwf. destruct from_pos as [fr fc], to_pos as [tr tc]. unfold _validate_rook.
  destruct (negb (fr =? tr) && negb (fc =? tc)); [apply returns_ret|].
  destruct (fr =? tr); auto with reads.
Qed.

Lemma returns_validate_queen s fr fc tr tc :
  wf_board s → (fr, fc) ≠ (tr, tc) →
  returns (_validate_queen (fr, fc) (tr, tc)) s.
Proof.
  intros Hwf Hne. unfold _validate_queen.
  apply returns_bind; [by apply returns_validate_bishop|].
  intros [] _; [apply returns_ret | by apply returns_validate_rook].
Qed.

Lemma returns_validate_knight s from_pos to_pos :
  returns (_validate_knight from_pos to_pos) s.
Proof. apply returns_ret. Qed.

Lemma returns_validate_pawn s from_pos to_pos p :
  wf_board s → cell s from_pos.1 from_pos.2 = Some p →
  returns (_validate_pawn from_pos to_pos) s.
Proof.
  intros Hwf Hp. destruct from_pos as [fr fc], to_pos as [tr tc]. simpl in Hp.
  unfold _validate_pawn. read_step. rewrite Hp. read_step.
  repeat (case_match; read_step; auto with reads).
Qed.

Lemma returns_validate_king s from_pos to_pos p :
  wf_board s → cell s from_pos.1 from_pos.2 = Some p →
  returns (_validate_king from_pos to_pos) s.
Proof.
  intros Hwf Hp. destruct from_pos as [fr fc], to_pos as [tr tc]. simpl in Hp.
  unfold _validate_king. read_step. rewrite Hp.
  repeat (case_match; read_step; auto with reads).
Qed.

(** [is_valid_move] on a well-formed board returns a boolean and leaves the
    state as it was: it raises nothing, its loops end, and it writes
    nothing. *)
Lemma returns_is_valid_move s from_pos to_pos :
  wf_board s → returns (is_valid_move from_pos to_pos) s.
Proof.
  intros Hwf. unfold is_valid_move. read_step.
  destruct (cell s from_pos.1 from_pos.2) as [p|] eqn:Hp; [|apply returns_ret].
  destruct (decide (from_pos = to_pos)) as [->|Hne].
  { unfold returns. rewrite Hp, (bind_ok _ _ s true s); [apply returns_ret|].
    unfold bind, attr, ret. by rewrite PieceColor_eqb_refl. }
  apply returns_bind.
  { destruct (cell s to_pos.1 to_pos.2); [|apply returns_ret]. read_step. by eexists. }
  intros [] _; [apply returns_ret|]. read_step.
  destruct from_pos as [fr fc], to_pos as [tr tc].
  destruct (piece_type (pieces s p)); cbn [PieceType_eqb].
  - by eapply returns_validate_king.
  - by apply returns_validate_queen.
  - by apply returns_validate_rook.
  - by apply returns_validate_bishop.
  - apply returns_validate_knight.
  - by eapply returns_validate_pawn.
Qed.

(** ** Writes *)

Lemma wf_board_place i j v s : wf_board s → wf_board (place i j v s).
Proof.
  intros [Hlen Hall]. unfold wf_board, place, put_cell. simpl.
  destruct (board s !! i) as [line|] eqn:Hline; [|done].
  rewrite length_insert. split; [done|].
  apply Forall_insert; [done|]. rewrite length_insert.
  rewrite Forall_forall in Hall. apply Hall, list_elem_of_In.
  by eapply list_elem_of_lookup_2.
Qed.

Lemma wf_board_reposition v pos s : wf_board s → wf_board (reposition v pos s).
Proof. by destruct v. Qed.

Lemma set_piece_ok s row col v i j :
  wf_board s → py_index 8 row = Some i → py_index 8 col = Some j →
  set_piece row col v s = Ok tt (place i j v (reposition v (row, col) s)).
Proof.
  intros Hwf Hi Hj. unfold set_piece.
  assert (Hset : board_set row col v (reposition v (row, col) s)
                 = Ok tt (place i j v (reposition v (row, col) s))).
  { pose proof (wf_board_reposition v (row, col) s Hwf) as Hwf'.
    destruct (wf_board_line _ i Hwf') as (line & Hline & Hlen);
      [by eapply py_index_lt|].
    unfold board_set, setitem, place, put_cell.
    by rewrite (proj1 Hwf'), Hi, Hline, Hlen, Hj. }
  destruct v; (erewrite bind_ok; [exact Hset | reflexivity]).
Qed.

Lemma set_piece_raise s row col v :
  wf_board s → py_index 8 row = None ∨ py_index 8 col = None →
  set_piece row col v s = Raise IndexError (reposition v (row, col) s).
Proof.
  intros Hwf Hij. unfold set_piece.
  assert (Hset : board_set row col v (reposition v (row, col) s)
                 = Raise IndexError (reposition v (row, col) s)).
  { pose proof (wf_board_reposition v (row, col) s Hwf) as Hwf'.
    unfold board_set, setitem. rewrite (proj1 Hwf').
    destruct (py_index 8 row) as [i|] eqn:Hi; [|done].
    destruct (wf_board_line _ i Hwf') as (line & Hline & Hlen);
      [by eapply py_index_lt|].
    rewrite Hline, Hlen. destruct Hij as [Hij|Hij]; [done|by rewrite Hij]. }
  destruct v; (erewrite bind_ok; [exact Hset | reflexivity]).
Qed.

Lemma cell_place s i j v row col :
  wf_board s → (i < 8)%nat → (j < 8)%nat →
  cell (place i j v s) row col = if at_index i j row col then v else cell s row col.
Proof.
  intros Hwf Hi Hj. unfold cell, place, put_cell, at_index. simpl.
  destruct (on_board row col) eqn:Hon; [|done]. simpl.
  destruct (wf_board_line s i Hwf Hi) as (line & Hline & Hlen). rewrite Hline.
  destruct (Nat.eqb_spec (Z.to_nat row) i) as [->|Hne]; simpl.
  - rewrite list_lookup_insert_eq by (rewrite (proj1 Hwf); lia).
    destruct (Nat.eqb_spec (Z.to_nat col) j) as [->|Hne].
    + by rewrite list_lookup_insert_eq by lia.
    + rewrite list_lookup_insert_ne by done. by rewrite Hline.
  - by rewrite list_lookup_insert_ne by done.
Qed.

Lemma cell_reposition v pos s row col : cell (reposition v pos s) row col = cell s row col.
Proof. by destruct v. Qed.

Lemma cell_on_board s row col p : cell s row col = Some p → on_board row col = true.
Proof. unfold cell. by destruct (on_board row col). Qed.

Lemma at_index_on_board row col r c :
  on_board row col = true →
  at_index (Z.to_nat row) (Z.to_nat col) r c = (r =? row) && (c =? col).
Proof.
  intros [Hr Hc]%on_board_spec. unfold at_index.
  destruct (on_board r c) eqn:Hon; simpl.
  - apply on_board_spec in Hon as [Hr' Hc'].
    destruct (Nat.eqb_spec (Z.to_nat r) (Z.to_nat row)),
      (Nat.eqb_spec (Z.to_nat c) (Z.to_nat col)),
      (Z.eqb_spec r row), (Z.eqb_spec c col); simpl; try done; lia.
  - apply on_board_false in Hon.
    destruct (Z.eqb_spec r row), (Z.eqb_spec c col); simpl; try done; lia.
Qed.

(** ** The guards of [move_piece] *)

(** A move to the square the piece stands on is never valid: the target
    is the piece itself, of its own colour. *)
Lemma is_valid_move_same s pos :
  wf_board s → is_valid_move pos pos s = Ok false s.
Proof.
  intros Hwf. unfold is_valid_move. read_step. unfold returns.
  destruct (cell s pos.1 pos.2) as [p|]; [|done].
  rewrite (bind_ok _ _ s true s); [done|].
  unfold bind, attr, ret. by rewrite PieceColor_eqb_refl.
Qed.

Lemma move_piece_cases s from_pos to_pos :
  wf_board s →
  (move_piece from_pos to_pos s = Ok false s ∧ ∀ p, ¬ legal s from_pos to_pos p)
  ∨ (∃ p, legal s from_pos to_pos p
          ∧ move_piece from_pos to_pos s = execute_move p from_pos to_pos s).
Proof.
  intros Hwf. unfold move_piece, legal. read_step. unfold returns.
  destruct (cell s from_pos.1 from_pos.2) as [p|] eqn:Hp.
  2:{ left. split; [done|]. by intros p [? _]. }
  read_step. unfold returns.
  destruct (PieceColor_eqb (color (pieces s p)) (current_turn s)) eqn:Hc; simpl.
  2:{ left. split; [done|]. intros q ([= <-] & Hq & _).
      apply PieceColor_eqb_eq in Hq. congruence. }
  apply PieceColor_eqb_eq in Hc.
  destruct (returns_is_valid_move s from_pos to_pos Hwf) as [[] Hb];
    rewrite (bind_ok _ _ _ _ _ Hb); simpl.
  - right. by exists p.
  - left. split; [done|]. intros q (_ & _ & Hq). congruence.
Qed.

(** ** The body of [move_piece] *)

Lemma execute_move_unfold s p from_pos to_pos :
  execute_move p from_pos to_pos s
  = ((if is_castling (piece_type (pieces s p)) from_pos.2 to_pos.2
      then castle_rook from_pos.1 to_pos.2 else ret tt) ;;;
     relocate p from_pos to_pos) s.
Proof. by destruct from_pos, to_pos. Qed.

Lemma settle_ok s p to_row :
  (set_has_moved p true ;;;
   pt' <- attr piece_type p ;;
   (if PieceType_eqb pt' PAWN && ((to_row =? 0) || (to_row =? 7))
    then set_piece_type p QUEEN
    else ret tt) ;;;
   turn <- get_turn ;;
   set_turn (other turn) ;;;
   ret true) s = Ok true (settle p to_row s).
Proof.
  unfold settle, bind, set_has_moved, attr. cbn zeta.
  fold (mark_moved p s).
  by destruct (PieceType_eqb (piece_type (pieces (mark_moved p s) p)) PAWN
               && ((to_row =? 0) || (to_row =? 7))).
Qed.

Lemma py_index_on_board row col :
  on_board row col = true →
  py_index 8 row = Some (Z.to_nat row) ∧ py_index 8 col = Some (Z.to_nat col).
Proof. intros [Hr Hc]%on_board_spec. split; by apply py_index_nonneg. Qed.

Lemma relocate_ok s p from_pos to_pos i j :
  wf_board s → on_board from_pos.1 from_pos.2 = true →
  py_index 8 to_pos.1 = Some i → py_index 8 to_pos.2 = Some j →
  relocate p from_pos to_pos s
  = Ok true (settle p to_pos.1 (carried p from_pos to_pos i j s)).
Proof.
  intros Hwf [Hfr Hfc]%py_index_on_board Hi Hj. unfold relocate, carried.
  erewrite bind_ok by (by apply set_piece_ok).
  erewrite bind_ok.
  2:{ apply set_piece_ok; [|done..]. by apply wf_board_place. }
  rewrite <- surjective_pairing. apply settle_ok.
Qed.

Lemma relocate_raise s p from_pos to_pos :
  wf_board s → on_board from_pos.1 from_pos.2 = true →
  py_index 8 to_pos.1 = None ∨ py_index 8 to_pos.2 = None →
  ∃ s', relocate p from_pos to_pos s = Raise IndexError s'.
Proof.
  intros Hwf [Hfr Hfc]%py_index_on_board Hij. unfold relocate.
  erewrite bind_ok by (by apply set_piece_ok).
  eexists. unfold bind at 1. rewrite set_piece_raise; [done| |done].
  by apply wf_board_place.
Qed.

Lemma castle_rook_eq s from_row to_col :
  wf_board s → 0 ≤ from_row < 8 →
  let rook_col := if to_col =? 2 then 0 else 7 in
  let rook_target_col := if to_col =? 2 then 3 else 5 in
  let rook := cell s from_row rook_col in
  let s' := rook_carried rook from_row rook_col rook_target_col s in
  castle_rook from_row to_col s
  = match rook with
    | Some rk => Ok tt (mark_moved rk s')
    | None => Raise AttributeError s'
    end.
Proof.
  intros Hwf Hfr. cbn zeta. unfold castle_rook, rook_carried. read_step. unfold returns.
  assert (Hcols : ∀ c, c = 0 ∨ c = 3 ∨ c = 5 ∨ c = 7 →
                       py_index 8 c = Some (Z.to_nat c)).
  { intros c ?. apply py_index_nonneg. lia. }
  erewrite bind_ok.
  2:{ apply set_piece_ok; [done|by apply py_index_nonneg|].
      apply Hcols. destruct (to_col =? 2); lia. }
  erewrite bind_ok.
  2:{ apply set_piece_ok; [by apply wf_board_place|by apply py_index_nonneg|].
      apply Hcols. destruct (to_col =? 2); lia. }
  by destruct (cell s from_row (if to_col =? 2 then 0 else 7)).
Qed.

(** ** The new game *)

Lemma ChessBoard_init_ok : ChessBoard_init no_pieces = Ok tt new_game.
Proof. vm_compute. reflexivity. Qed.

Lemma wf_board_new_game : wf_board new_game.
Proof. split; [by vm_compute|]. vm_compute. repeat constructor. Qed.

Lemma cell_settle p to_row s row col : cell (settle p to_row s) row col = cell s row col.
Proof.
  unfold settle. cbn zeta.
  by destruct (PieceType_eqb _ PAWN && ((to_row =? 0) || (to_row =? 7))).
Qed.

Lemma cell_carried s p from_pos to_pos i j row col :
  wf_board s → on_board from_pos.1 from_pos.2 = true → (i < 8)%nat → (j < 8)%nat →
  cell (carried p from_pos to_pos i j s) row col
  = if at_index i j row col then Some p
    else if (row =? from_pos.1) && (col =? from_pos.2) then None
    else cell s row col.
Proof.
  intros Hwf Hon Hi Hj. unfold carried.
  assert (Hfrom : (Z.to_nat from_pos.1 < 8 ∧ Z.to_nat from_pos.2 < 8)%nat).
  { apply on_board_spec in Hon. lia. }
  rewrite cell_place; [|by apply wf_board_reposition, wf_board_place|done..].
  rewrite cell_reposition, cell_place, at_index_on_board by (done || lia).
  done.
Qed.

Lemma wf_board_settle p to_row s : wf_board s → wf_board (settle p to_row s).
Proof.
  unfold settle. cbn zeta.
  by destruct (PieceType_eqb _ PAWN && ((to_row =? 0) || (to_row =? 7))).
Qed.

Lemma wf_board_carried p from_pos to_pos i j s :
  wf_board s → wf_board (carried p from_pos to_pos i j s).
Proof.
  intros Hwf. unfold carried.
  by apply wf_board_place, (wf_board_reposition (Some p)), wf_board_place.
Qed.

Lemma wf_board_rook_carried rook from_row rook_col rook_target_col s :
  wf_board s → wf_board (rook_carried rook from_row rook_col rook_target_col s).
Proof.
  intros Hwf. unfold rook_carried.
  by apply wf_board_place, wf_board_reposition, wf_board_place.
Qed.

Lemma move_piece_accepted s from_pos to_pos b s' :
  wf_board s → move_piece from_pos to_pos s = Ok b s' →
  (b = false ∧ s' = s)
  ∨ (b = true
     ∧ ∃ p i j s1,
         legal s from_pos to_pos p
         ∧ py_index 8 to_pos.1 = Some i ∧ py_index 8 to_pos.2 = Some j
         ∧ castled s p from_pos to_pos s1
         ∧ wf_board s1
         ∧ s' = settle p to_pos.1 (carried p from_pos to_pos i j s1)).
Proof.
  intros Hwf Hmove.
  destruct (move_piece_cases s from_pos to_pos Hwf)
    as [[Hrej _]|(p & Hlegal & Hexec)].
  { left. rewrite Hrej in Hmove. by injection Hmove as <- <-. }
  right. pose proof Hlegal as (Hp & _ & _).
  pose proof (cell_on_board _ _ _ _ Hp) as Hfrom.
  rewrite Hexec, execute_move_unfold in Hmove.
  assert (Hstart : ∃ s1, castled s p from_pos to_pos s1 ∧ wf_board s1
                          ∧ relocate p from_pos to_pos s1 = Ok b s').
  { unfold castled.
    destruct (is_castling (piece_type (pieces s p)) from_pos.2 to_pos.2).
    - unfold bind at 1 in Hmove. rewrite castle_rook_eq in Hmove;
        [|done|by apply on_board_spec in Hfrom as [? ?]].
      destruct (cell s from_pos.1 (if to_pos.2 =? 2 then 0 else 7)) as [rk|] eqn:Hrk;
        [|done].
      eexists. split; [by exists rk|]. split; [|done].
      by apply wf_board_rook_carried.
    - exists s. by rewrite (bind_ok (ret tt) _ s tt s eq_refl) in Hmove. }
  destruct Hstart as (s1 & Hs1 & Hwf1 & Hrel).
  destruct (py_index 8 to_pos.1) as [i|] eqn:Hi.
  2:{ destruct (relocate_raise s1 p from_pos to_pos Hwf1 Hfrom) as [? Hr]; [by left|].
      congruence. }
  destruct (py_index 8 to_pos.2) as [j|] eqn:Hj.
  2:{ destruct (relocate_raise s1 p from_pos to_pos Hwf1 Hfrom) as [? Hr]; [by right|].
      congruence. }
  rewrite (relocate_ok s1 p from_pos to_pos i j) in Hrel by done.
  injection Hrel as <- <-. split; [done|]. by exists p, i, j, s1.
Qed.

Lemma pieces_moved s p from_pos to_pos i j to_row q :
  pieces (settle p to_row (carried p from_pos to_pos i j s)) q
  = if decide (p = q) then
      mkPiece (if PieceType_eqb (piece_type (pieces s p)) PAWN
                  && ((to_row =? 0) || (to_row =? 7))
               then QUEEN else piece_type (pieces s p))
              (color (pieces s p)) to_pos true
    else pieces s q.
Proof.
  unfold settle, carried, mark_moved, crown, reposition, place, with_pieces, with_board.
  cbn -[decide Z.eqb]. unfold insert, fn_insert.
  destruct (decide (p = p)); [|done]. cbn [piece_type].
  destruct (PieceType_eqb (piece_type (pieces s p)) PAWN && ((to_row =? 0) || (to_row =? 7)));
    cbn -[decide]; by destruct (decide (p = q)) as [<-|?].
Qed.

Lemma pieces_castled s rk from_row rook_col rook_target_col q :
  pieces (mark_moved rk (rook_carried (Some rk) from_row rook_col rook_target_col s)) q
  = if decide (rk = q) then
      mkPiece (piece_type (pieces s rk)) (color (pieces s rk))
              (from_row, rook_target_col) true
    else pieces s q.
Proof.
  unfold mark_moved, rook_carried, reposition, place, with_pieces, with_board.
  cbn -[decide]. unfold insert, fn_insert.
  destruct (decide (rk = rk)); [|done]. by destruct (decide (rk = q)) as [<-|?].
Qed.

Lemma cell_castled s rk from_row rook_col rook_target_col row col :
  wf_board s → on_board from_row rook_col = true →
  on_board from_row rook_target_col = true →
  cell (mark_moved rk (rook_carried (Some rk) from_row rook_col rook_target_col s))
       row col
  = if (row =? from_row) && (col =? rook_target_col) then Some rk
    else if (row =? from_row) && (col =? rook_col) then None
    else cell s row col.
Proof.
  intros Hwf Hc Ht. unfold rook_carried.
  apply on_board_spec in Hc as Hc'. apply on_board_spec in Ht as Ht'.
  change (cell (mark_moved rk ?x) row col) with (cell x row col).
  rewrite cell_place; [|by apply (wf_board_reposition (Some rk)), wf_board_place|lia..].
  rewrite cell_reposition, cell_place by (done || lia).
  by rewrite !at_index_on_board by done.
Qed.

(** ** The pawn rule and the king rule *)

Lemma is_valid_move_eq s p from_pos to_pos :
  wf_board s → cell s from_pos.1 from_pos.2 = Some p →
  is_valid_move from_pos to_pos s
  = if own_target s p to_pos then Ok false s
    else rule_of (piece_type (pieces s p)) from_pos to_pos s.
Proof.
  intros Hwf Hp. unfold is_valid_move, own_target. read_step. unfold returns.
  rewrite Hp. destruct (cell s to_pos.1 to_pos.2) as [t|]; read_step; unfold returns.
  - destruct (PieceColor_eqb _ _); [done|]. read_step. unfold returns.
    by destruct (piece_type (pieces s p)).
  - by destruct (piece_type (pieces s p)).
Qed.

Lemma validate_pawn_spec s p from_pos to_pos :
  wf_board s →
  cell s from_pos.1 from_pos.2 = Some p →
  _validate_pawn from_pos to_pos s = Ok true s ↔ pawn_rule s p from_pos to_pos.
Proof.
  intros Hwf Hp. destruct from_pos as [fr fc], to_pos as [tr tc]. simpl in Hp.
  unfold _validate_pawn, pawn_rule. cbn [fst snd]. read_step. unfold returns.
  rewrite Hp. read_step. unfold returns.
  assert (Hdir : (if PieceColor_eqb (color (pieces s p)) WHITE then -1 else 1)
                 = pawn_direction (color (pieces s p)))
    by (by destruct (color (pieces s p))).
  rewrite Hdir. set (d := pawn_direction (color (pieces s p))).
  assert (Hd : d = -1 ∨ d = 1) by (unfold d; destruct (color (pieces s p)); auto).
  destruct ((fc =? tc) && (tr =? fr + d)) eqn:Hone; bool_hyp Hone.
  { (* one square forward *)
    read_step. unfold returns.
    destruct (cell s tr tc) as [t|] eqn:Ht; (split; [intros Hok|intros Hrule]).
    - done.
    - destruct Hrule as [(_ & _ & ?)|[(_ & ? & _)|(_ & ? & _)]]; (done || lia).
    - left. repeat split; (done || lia).
    - done. }
  destruct ((fc =? tc)
            && (PieceColor_eqb (color (pieces s p)) WHITE && (fr =? 6) && (tr =? 4)
                || PieceColor_eqb (color (pieces s p)) BLACK && (fr =? 1) && (tr =? 3)))
    eqn:Htwo.
  { (* double move from the starting rank *)
    read_step. unfold returns.
    assert (Hgeo : fc = tc ∧ tr = fr + 2 * d ∧ fr = pawn_start_row (color (pieces s p))).
    { unfold d. destruct (color (pieces s p)); cbn [PieceColor_eqb andb orb] in Htwo;
        bool_hyp Htwo; cbn [pawn_direction pawn_start_row]; lia. }
    destruct (cell s (fr + d) fc) as [m|] eqn:Hmid; read_step; unfold returns.
    - split; [done|].
      intros [(_ & ? & _)|[(_ & _ & _ & ? & _)|(_ & ? & _)]]; (done || lia).
    - destruct (cell s tr tc) as [t|] eqn:Ht; (split; [intros Hok|intros Hrule]).
      + done.
      + destruct Hrule as [(_ & ? & _)|[(_ & _ & _ & _ & ?)|(_ & ? & _)]]; (done || lia).
      + right. left. repeat split; (done || lia).
      + done. }
  assert (Hnot_two : ¬ (tc = fc ∧ tr = fr + 2 * d
                        ∧ fr = pawn_start_row (color (pieces s p)))).
  { unfold d. destruct (color (pieces s p)); cbn [PieceColor_eqb andb orb] in Htwo;
      bool_hyp Htwo; cbn [pawn_direction pawn_start_row]; lia. }
  destruct ((Z.abs (tc - fc) =? 1) && (tr =? fr + d)) eqn:Hdiag; bool_hyp Hdiag.
  { (* diagonal capture *)
    read_step. unfold returns.
    destruct (cell s tr tc) as [t|] eqn:Ht; read_step; unfold returns.
    - destruct (PieceColor_eqb (color (pieces s t)) (color (pieces s p))) eqn:Hc;
        cbn [negb]; (split; [intros Hok|intros Hrule]).
      + done.
      + apply PieceColor_eqb_eq in Hc.
        destruct Hrule as [(? & _)|[(? & _)|(_ & _ & q & [= <-] & ?)]]; (done || lia).
      + apply PieceColor_eqb_neq in Hc.
        right. right. split; [lia|]. split; [lia|]. by exists t.
      + done.
    - split; [done|].
      intros [(? & _)|[(? & _)|(_ & _ & q & ? & _)]]; (done || lia). }
  split; [done|].
  intros [(? & ? & _)|[(? & ? & ? & _)|(? & ? & _)]]; lia.
Qed.

(** On a pawn, [is_valid_move] decides the pawn rule of the specification. *)
Lemma is_valid_move_pawn s p from_pos to_pos :
  wf_board s →
  cell s from_pos.1 from_pos.2 = Some p →
  piece_type (pieces s p) = PAWN →
  is_valid_move from_pos to_pos s = Ok true s ↔ pawn_rule s p from_pos to_pos.
Proof.
  intros Hwf Hp Hpawn.
  rewrite (is_valid_move_eq s p) by done. rewrite Hpawn. cbn [rule_of].
  unfold own_target.
  destruct (cell s to_pos.1 to_pos.2) as [t|] eqn:Ht;
    [|by apply validate_pawn_spec].
  destruct (PieceColor_eqb (color (pieces s t)) (color (pieces s p))) eqn:Hc;
    [|by apply validate_pawn_spec].
  apply PieceColor_eqb_eq in Hc. split; [done|]. unfold pawn_rule. rewrite Ht.
  intros [(_ & _ & ?)|[(_ & _ & _ & _ & ?)|(_ & _ & q & [= <-] & ?)]]; done.
Qed.

Lemma is_valid_move_from_pawn s p from_pos to_pos :
  wf_board s → legal s from_pos to_pos p → piece_type (pieces s p) = PAWN →
  -1 ≤ to_pos.1 ∧ (to_pos.1 = -1 → from_pos.1 = 0).
Proof.
  intros Hwf (Hp & _ & Hv) Hpawn.
  apply (is_valid_move_pawn s p) in Hv; [|done..].
  pose proof (cell_on_board _ _ _ _ Hp) as [Hfr _]%on_board_spec.
  unfold pawn_rule in Hv.
  destruct (color (pieces s p)); cbn [pawn_direction pawn_start_row] in Hv;
    destruct Hv as [(_ & ? & _)|[(_ & ? & ? & _)|(? & _)]]; lia.
Qed.

(** What the king rule has checked when it accepts a move over two columns. *)
Lemma validate_king_castling s p from_pos to_pos :
  wf_board s →
  cell s from_pos.1 from_pos.2 = Some p →
  Z.abs (from_pos.2 - to_pos.2) = 2 →
  _validate_king from_pos to_pos s = Ok true s →
  has_moved (pieces s p) = false
  ∧ from_pos.1 = to_pos.1
  ∧ ∃ rk, cell s from_pos.1 (if to_pos.2 <? from_pos.2 then 0 else 7) = Some rk
          ∧ piece_type (pieces s rk) = ROOK
          ∧ has_moved (pieces s rk) = false.
Proof.
  intros Hwf Hp Hcols. destruct from_pos as [fr fc], to_pos as [tr tc].
  cbn [fst snd] in *. unfold _validate_king. read_step. unfold returns. rewrite Hp.
  destruct ((Z.abs (tr - fr) <=? 1) && (Z.abs (tc - fc) <=? 1)) eqn:Hone;
    bool_hyp Hone; [lia|].
  read_step. unfold returns.
  destruct (negb (has_moved (pieces s p)) && (fr =? tr) && (Z.abs (tc - fc) =? 2))
    eqn:Hcastle; [|done].
  bool_hyp Hcastle. destruct Hcastle as [[Hunmoved ->] _].
  read_step. unfold returns.
  destruct (cell s tr (if tc <? fc then 0 else 7)) as [rk|] eqn:Hrk; [|done].
  read_step. unfold returns.
  destruct (PieceType_eqb (piece_type (pieces s rk)) ROOK) eqn:Hrook; [|done].
  apply PieceType_eqb_eq in Hrook. cbn [negb]. read_step. unfold returns.
  destruct (has_moved (pieces s rk)) eqn:Hrm; [done|].
  intros _. repeat split; try done. by exists rk.
Qed.

(** ** What holds in every state of a game *)

Lemma elem_of_range lo hi x : lo ≤ x < hi → In x (range lo hi).
Proof.
  intros Hx. unfold range. apply in_map_iff. exists (Z.to_nat (x - lo)).
  split; [lia|]. apply in_seq. lia.
Qed.

Lemma all_cells_spec P s row col q :
  all_cells P s = true → cell s row col = Some q → P row col q = true.
Proof.
  intros Hall Hq. pose proof (cell_on_board _ _ _ _ Hq) as [Hr Hc]%on_board_spec.
  unfold all_cells in Hall. rewrite forallb_forall in Hall.
  specialize (Hall row (elem_of_range 0 8 row Hr)).
  rewrite forallb_forall in Hall.
  specialize (Hall col (elem_of_range 0 8 col Hc)). by rewrite Hq in Hall.
Qed.

(** The castling block changes no piece's kind or colour, and a piece it
    touches is marked as moved. *)
Lemma castled_pieces s p from_pos to_pos s1 q :
  castled s p from_pos to_pos s1 →
  piece_type (pieces s1 q) = piece_type (pieces s q)
  ∧ color (pieces s1 q) = color (pieces s q)
  ∧ (has_moved (pieces s1 q) = true ∨ pieces s1 q = pieces s q).
Proof.
  unfold castled. destruct (is_castling _ _ _); [|by intros ->; auto].
  intros (rk & _ & ->). rewrite pieces_castled.
  destruct (decide (rk = q)) as [<-|?]; auto.
Qed.

(** Where the occupant of a square comes from, after the castling block. *)
Lemma castled_cell s p from_pos to_pos s1 row col q :
  wf_board s → on_board from_pos.1 from_pos.2 = true →
  castled s p from_pos to_pos s1 →
  cell s1 row col = Some q →
  cell s row col = Some q
  ∨ (is_castling (piece_type (pieces s p)) from_pos.2 to_pos.2 = true
     ∧ row = from_pos.1
     ∧ cell s from_pos.1 (if to_pos.2 =? 2 then 0 else 7) = Some q
     ∧ col = (if to_pos.2 =? 2 then 3 else 5)
     ∧ has_moved (pieces s1 q) = true).
Proof.
  intros Hwf Hfrom. unfold castled.
  destruct (is_castling _ _ _); [|by intros ->; auto].
  intros (rk & Hrk & ->) Hq.
  apply on_board_spec in Hfrom as [Hfr _].
  rewrite cell_castled in Hq;
    [|done|apply on_board_spec; destruct (to_pos.2 =? 2); lia..].
  destruct (Z.eqb_spec row from_pos.1) as [->|?]; cbn [andb] in Hq; [|by left].
  destruct (Z.eqb_spec col (if to_pos.2 =? 2 then 3 else 5)) as [->|?].
  - injection Hq as <-. right. repeat split; try done.
    rewrite pieces_castled. by destruct (decide (rk = rk)).
  - destruct (col =? (if to_pos.2 =? 2 then 0 else 7)); [done|by left].
Qed.

Lemma back_rows_pawn_free_step s from_pos to_pos b s' :
  wf_board s → back_rows_pawn_free s →
  move_piece from_pos to_pos s = Ok b s' → back_rows_pawn_free s'.
Proof.
  intros Hwf Hinv Hmove.
  destruct (move_piece_accepted s from_pos to_pos b s' Hwf Hmove)
    as [[_ ->]|(_ & p & i & j & s1 & Hlegal & Hi & Hj & Hcast & Hwf1 & ->)]; [done|].
  pose proof Hlegal as (Hp & _ & _).
  pose proof (cell_on_board _ _ _ _ Hp) as Hfrom.
  intros row col q Hq Hrow Htype.
  rewrite cell_settle, cell_carried in Hq by (done || by eapply py_index_lt).
  rewrite pieces_moved in Htype.
  destruct (castled_pieces s p from_pos to_pos s1 p Hcast) as (Hkp & _ & _).
  destruct (castled_pieces s p from_pos to_pos s1 q Hcast) as (Hkq & _ & _).
  assert (Hkind : piece_type (pieces s q) = PAWN
                  ∧ (p = q → ¬ (to_pos.1 = 0 ∨ to_pos.1 = 7))).
  { destruct (decide (p = q)) as [<-|?]; cbn [piece_type] in Htype; [|by rewrite <- Hkq].
    rewrite Hkp in Htype. destruct (piece_type (pieces s p)); try done.
    cbn [PieceType_eqb andb] in Htype.
    destruct ((to_pos.1 =? 0) || (to_pos.1 =? 7)) eqn:Hlast; [done|].
    bool_hyp Hlast. split; [done|]. lia. }
  destruct Hkind as [Hpawn Hlast].
  destruct (at_index i j row col) eqn:Hat.
  - (* the moved piece, on the cell the destination denotes *)
    injection Hq as <-. specialize (Hlast eq_refl).
    destruct (is_valid_move_from_pawn s p from_pos to_pos Hwf Hlegal Hpawn) as [Hge Hm1].
    unfold at_index in Hat. bool_hyp Hat. destruct Hat as [[Hon%on_board_spec Hrow'] _].
    assert (to_pos.1 = -1) by (apply py_index_inv in Hi; lia).
    apply (Hinv 0 from_pos.2 p); [|by left|done].
    by rewrite <- (Hm1 ltac:(done)).
  - destruct ((row =? from_pos.1) && (col =? from_pos.2)); [done|].
    destruct (castled_cell s p from_pos to_pos s1 row col q Hwf Hfrom Hcast Hq)
      as [Hs|(_ & -> & Hs & _)]; by eapply Hinv.
Qed.

Lemma unmoved_kings_home_step s from_pos to_pos b s' :
  wf_board s → unmoved_kings_home s →
  move_piece from_pos to_pos s = Ok b s' → unmoved_kings_home s'.
Proof.
  intros Hwf Hinv Hmove.
  destruct (move_piece_accepted s from_pos to_pos b s' Hwf Hmove)
    as [[_ ->]|(_ & p & i & j & s1 & Hlegal & Hi & Hj & Hcast & Hwf1 & ->)]; [done|].
  pose proof Hlegal as (Hp & _ & _).
  pose proof (cell_on_board _ _ _ _ Hp) as Hfrom.
  intros row col q Hq Hking Hunmoved.
  rewrite cell_settle, cell_carried in Hq by (done || by eapply py_index_lt).
  rewrite pieces_moved in Hking, Hunmoved.
  destruct (decide (p = q)) as [<-|Hne]; [done|].
  destruct (at_index i j row col); [congruence|].
  destruct ((row =? from_pos.1) && (col =? from_pos.2)); [done|].
  destruct (castled_pieces s p from_pos to_pos s1 q Hcast) as (Hk & _ & [Hm|Heq]);
    [congruence|].
  destruct (castled_cell s p from_pos to_pos s1 row col q Hwf Hfrom Hcast Hq)
    as [Hs|(_ & _ & _ & _ & Hm)]; [|congruence].
  apply (Hinv row col q); congruence.
Qed.

Lemma wf_board_step s from_pos to_pos b s' :
  wf_board s → move_piece from_pos to_pos s = Ok b s' → wf_board s'.
Proof.
  intros Hwf Hmove.
  destruct (move_piece_accepted s from_pos to_pos b s' Hwf Hmove)
    as [[_ ->]|(_ & p & i & j & s1 & _ & _ & _ & _ & Hwf1 & ->)]; [done|].
  by apply wf_board_settle, wf_board_carried.
Qed.

Lemma reachable_invariant s :
  reachable s → wf_board s ∧ back_rows_pawn_free s ∧ unmoved_kings_home s.
Proof.
  induction 1 as [|s from_pos to_pos b s' _ (Hwf & Hrows & Hkings) Hmove].
  - split; [apply wf_board_new_game|]. split.
    + intros row col q Hq Hrow Hpawn.
      pose proof (all_cells_spec
        (λ row _ q, negb ((row =? 0) || (row =? 7))
                    || negb (PieceType_eqb (piece_type (pieces new_game q)) PAWN))
        new_game row col q ltac:(by vm_compute) Hq) as Hcheck.
      cbn beta in Hcheck. rewrite Hpawn in Hcheck. cbn [PieceType_eqb negb] in Hcheck.
      bool_hyp Hcheck. lia.
    + intros row col q Hq Hking Hunmoved.
      pose proof (all_cells_spec
        (λ _ col q, negb (PieceType_eqb (piece_type (pieces new_game q)) KING)
                    || (col =? 4))
        new_game row col q ltac:(by vm_compute) Hq) as Hcheck.
      cbn beta in Hcheck. rewrite Hking in Hcheck. cbn [PieceType_eqb negb orb] in Hcheck.
      by bool_hyp Hcheck.
  - split; [by eapply wf_board_step|]. split.
    + by eapply back_rows_pawn_free_step.
    + by eapply unmoved_kings_home_step.
Qed.

Lemma reachable_plays moves s s' :
  reachable s → plays moves s = Some s' → reachable s'.
Proof.
  revert s. induction moves as [|m rest IH]; intros s Hs; simpl.
  - by intros [= <-].
  - destruct (move_piece m.1 m.2 s) as [b s1| |] eqn:Hm; [|done..].
    apply IH. by eapply reach_move.
Qed.

Lemma reachable_before_promotion : reachable before_promotion.
Proof. apply (reachable_plays promotion_moves new_game); [constructor|by vm_compute]. Qed.

Lemma reachable_before_castling : reachable before_castling.
Proof. apply (reachable_plays castling_moves new_game); [constructor|by vm_compute]. Qed.

Lemma current_turn_settle p to_row s :
  current_turn (settle p to_row s) = other (current_turn s).
Proof.
  unfold settle. cbn zeta.
  by destruct (PieceType_eqb _ PAWN && ((to_row =? 0) || (to_row =? 7))).
Qed.

Lemma other_cases c :
  other c = match c with WHITE => BLACK | BLACK => WHITE end.
Proof. by destruct c. Qed.

Lemma castled_turn s p from_pos to_pos s1 :
  castled s p from_pos to_pos s1 → current_turn s1 = current_turn s.
Proof.
  unfold castled. destruct (is_castling _ _ _); [|by intros ->].
  by intros (rk & _ & ->).
Qed.

(** ** The [has_moved] flags and the shape of the grid *)

Lemma flags_kept_refl s : flags_kept s s.
Proof. by intros r. Qed.

Lemma flags_kept_trans s1 s2 s3 : flags_kept s1 s2 → flags_kept s2 s3 → flags_kept s1 s3.
Proof. intros H12 H23 r Hr. by apply H23, H12. Qed.

Lemma flags_kept_update s p o :
  (has_moved (pieces s p) = true → has_moved o = true) →
  flags_kept s (with_pieces (<[p := o]> (pieces s)) s).
Proof.
  intros Ho r Hr. cbn. unfold insert, fn_insert.
  destruct (decide (p = r)) as [<-|?]; auto.
Qed.

Lemma flags_kept_board_set row col v : keeps flags_kept (board_set row col v).
Proof.
  intros s. unfold board_set.
  destruct (py_index _ row) as [i|]; [|apply flags_kept_refl].
  destruct (board s !! i) as [line|]; [|apply flags_kept_refl].
  destruct (setitem line col v); [|apply flags_kept_refl]. by intros r.
Qed.

Lemma flags_kept_call o : keeps flags_kept (call o).
Proof.
  apply (keeps_call flags_kept flags_kept_refl flags_kept_trans).
  - intros p v s. by apply flags_kept_update.
  - intros p s. by apply flags_kept_update.
  - intros p v s. by apply flags_kept_update.
  - apply flags_kept_board_set.
  - intros c s. by intros r.
Qed.

Lemma shape_kept_refl s : shape_kept s s.
Proof. by intros ?. Qed.

Lemma shape_kept_trans s1 s2 s3 : shape_kept s1 s2 → shape_kept s2 s3 → shape_kept s1 s3.
Proof. unfold shape_kept. auto. Qed.

Lemma shape_kept_board_set row col v : keeps shape_kept (board_set row col v).
Proof.
  intros s. unfold board_set, setitem.
  destruct (py_index (length (board s)) row) as [i|]; [|by intros ?].
  destruct (board s !! i) as [line|] eqn:Hline; [|by intros ?].
  destruct (py_index (length line) col) as [j|]; [|by intros ?].
  intros Hwf. pose proof (wf_board_place i j v s Hwf) as Hplace.
  unfold place, put_cell in Hplace. by rewrite Hline in Hplace.
Qed.

Lemma shape_kept_call o : keeps shape_kept (call o).
Proof.
  apply (keeps_call shape_kept shape_kept_refl shape_kept_trans).
  - by intros p v s Hwf.
  - by intros p s Hwf.
  - by intros p v s Hwf.
  - apply shape_kept_board_set.
  - by intros c s Hwf.
Qed.

Lemma total_execute_move p from_pos to_pos : total (execute_move p from_pos to_pos).
Proof.
  destruct from_pos as [fr fc], to_pos as [tr tc]. unfold execute_move, castle_rook.
  repeat first
    [ apply total_get_piece | apply total_set_piece
    | apply total_bind; [|intros ?]
    | match goal with
      | |- total (match ?x with _ => _ end) => destruct x
      | |- total (if ?x then _ else _) => destruct x
      end
    | done ].
Qed.

Lemma call_ends o s : wf_board s → call o s ≠ Diverge.
Proof.
  intros Hwf. destruct o as [row col|from_pos to_pos|from_pos to_pos]; unfold call, bind.
  - by rewrite get_piece_ok.
  - by destruct (returns_is_valid_move s from_pos to_pos Hwf) as [b ->].
  - destruct (move_piece_cases s from_pos to_pos Hwf) as [[-> _]|(p & _ & ->)]; [done|].
    pose proof (total_execute_move p from_pos to_pos s).
    by destruct (execute_move p from_pos to_pos s).
Qed.

(** ** The rook, bishop and king rules *)

Lemma in_range lo hi x : In x (range lo hi) ↔ lo ≤ x < hi.
Proof.
  split; [|apply elem_of_range].
  unfold range. intros (k & <- & Hk%in_seq)%in_map_iff. lia.
Qed.

Lemma path_clear_spec s sqs :
  wf_board s → path_clear sqs s = Ok true s ↔ all_empty s sqs.
Proof.
  intros Hwf. unfold all_empty. induction sqs as [|[r c] rest IH]; simpl.
  - split; [by intros _ sq []|done].
  - read_step. unfold returns. destruct (cell s r c) as [q|] eqn:Hq.
    + split; [done|]. intros Hall. specialize (Hall (r, c) (or_introl eq_refl)).
      simpl in Hall. congruence.
    + rewrite IH. split.
      * intros Hall sq [<-|Hin]; [done|by apply Hall].
      * intros Hall sq Hin. apply Hall. by right.
Qed.

Lemma validate_rook_spec s from_pos to_pos :
  wf_board s →
  _validate_rook from_pos to_pos s = Ok true s ↔ rook_rule s from_pos to_pos.
Proof.
  intros Hwf. destruct from_pos as [fr fc], to_pos as [tr tc].
  unfold _validate_rook, rook_rule. cbn [fst snd].
  destruct (Z.eqb_spec fr tr) as [->|Hrow]; cbn [negb andb].
  - rewrite path_clear_spec by done. unfold all_empty. split.
    + intros Hall. left. split; [done|]. intros c Hc.
      apply (Hall (tr, c)), in_map_iff. exists c. split; [done|]. apply in_range. lia.
    + intros [[_ Hall]|[? _]]; [|done].
      intros sq (c & <- & Hc%in_range)%in_map_iff. cbn [fst snd]. apply Hall. lia.
  - destruct (Z.eqb_spec fc tc) as [->|Hcol]; cbn [negb].
    + rewrite path_clear_spec by done. unfold all_empty. split.
      * intros Hall. right. split; [done|]. split; [done|]. intros r Hr.
        apply (Hall (r, tc)), in_map_iff. exists r. split; [done|]. apply in_range. lia.
      * intros [[? _]|(_ & _ & Hall)]; [done|].
        intros sq (r & <- & Hr%in_range)%in_map_iff. cbn [fst snd]. apply Hall. lia.
    + split; [done|]. intros [[? _]|(_ & ? & _)]; done.
Qed.

Lemma bishop_walk_spec s fuel n r c tr tc rs cs :
  wf_board s → rs ≠ 0 →
  tr = r + Z.of_nat n * rs → tc = c + Z.of_nat n * cs → (n < fuel)%nat →
  bishop_walk fuel r c tr tc rs cs s = Ok true s
  ↔ ∀ k, 0 ≤ k < Z.of_nat n → cell s (r + k * rs) (c + k * cs) = None.
Proof.
  intros Hwf Hrs. revert n r c.
  induction fuel as [|fuel IH]; intros n r c Hr Hc Hn; [lia|].
  simpl. destruct n as [|n].
  - replace tr with r by lia. replace tc with c by lia.
    rewrite !Z.eqb_refl. cbn [andb]. split; [intros _ k ?; lia|done].
  - destruct (Z.eqb_spec r tr) as [Er|_]; [nia|]. cbn [andb].
    read_step. unfold returns. destruct (cell s r c) as [q|] eqn:Hq.
    + split; [done|]. intros Hall. specialize (Hall 0 ltac:(lia)).
      rewrite !Z.mul_0_l, !Z.add_0_r in Hall. congruence.
    + rewrite (IH n) by lia. split.
      * intros Hall k Hk. destruct (Z.eq_dec k 0) as [->|?].
        { by rewrite !Z.mul_0_l, !Z.add_0_r. }
        specialize (Hall (k - 1) ltac:(lia)).
        by replace (r + rs + (k - 1) * rs) with (r + k * rs) in Hall by lia;
           replace (c + cs + (k - 1) * cs) with (c + k * cs) in Hall by lia.
      * intros Hall k Hk. specialize (Hall (k + 1) ltac:(lia)).
        by replace (r + (k + 1) * rs) with (r + rs + k * rs) in Hall by lia;
           replace (c + (k + 1) * cs) with (c + cs + k * cs) in Hall by lia.
Qed.

Lemma validate_bishop_spec s from_pos to_pos :
  wf_board s → from_pos ≠ to_pos →
  _validate_bishop from_pos to_pos s = Ok true s ↔ bishop_rule s from_pos to_pos.
Proof.
  intros Hwf Hne. destruct from_pos as [fr fc], to_pos as [tr tc].
  unfold _validate_bishop, bishop_rule. cbn [fst snd].
  destruct (Z.eqb_spec (Z.abs (tr - fr)) (Z.abs (tc - fc))) as [Hd|Hd]; cbn [negb].
  2:{ split; [done|]. by intros [? _]. }
  assert (Hpos : 0 < Z.abs (tr - fr)).
  { destruct (Z.eq_dec fr tr), (Z.eq_dec fc tc); try lia. congruence. }
  assert (Hrs : (if fr <? tr then 1 else -1) = Z.sgn (tr - fr))
    by (destruct (Z.ltb_spec fr tr); lia).
  assert (Hcs : (if fc <? tc then 1 else -1) = Z.sgn (tc - fc))
    by (destruct (Z.ltb_spec fc tc); lia).
  rewrite Hrs, Hcs.
  rewrite (bishop_walk_spec s _ (Z.to_nat (Z.abs (tr - fr) - 1))); [|done|lia..].
  split.
  - intros Hall. split; [done|]. intros k Hk. specialize (Hall (k - 1) ltac:(lia)).
    by replace (fr + Z.sgn (tr - fr) + (k - 1) * Z.sgn (tr - fr))
         with (fr + k * Z.sgn (tr - fr)) in Hall by lia;
       replace (fc + Z.sgn (tc - fc) + (k - 1) * Z.sgn (tc - fc))
         with (fc + k * Z.sgn (tc - fc)) in Hall by lia.
  - intros [_ Hall] k Hk. specialize (Hall (k + 1) ltac:(lia)).
    by replace (fr + (k + 1) * Z.sgn (tr - fr))
         with (fr + Z.sgn (tr - fr) + k * Z.sgn (tr - fr)) in Hall by lia;
       replace (fc + (k + 1) * Z.sgn (tc - fc))
         with (fc + Z.sgn (tc - fc) + k * Z.sgn (tc - fc)) in Hall by lia.
Qed.

Lemma validate_king_spec s p from_pos to_pos :
  wf_board s → cell s from_pos.1 from_pos.2 = Some p →
  _validate_king from_pos to_pos s = Ok true s ↔ king_rule s p from_pos to_pos.
Proof.
  intros Hwf Hp. destruct from_pos as [fr fc], to_pos as [tr tc].
  cbn [fst snd] in Hp. unfold _validate_king, king_rule. cbn [fst snd].
  read_step. unfold returns. rewrite Hp.
  destruct ((Z.abs (tr - fr) <=? 1) && (Z.abs (tc - fc) <=? 1)) eqn:Hone; bool_hyp Hone.
  { split; [by left|done]. }
  read_step. unfold returns.
  destruct (negb (has_moved (pieces s p)) && (fr =? tr) && (Z.abs (tc - fc) =? 2))
    eqn:Hcastle; bool_hyp Hcastle.
  2:{ split; [done|]. intros [?|(? & ? & ? & _)]; [lia|].
      destruct Hcastle as [[?|?]|?]; congruence. }
  destruct Hcastle as [[Hunmoved ->] Hcols].
  read_step. unfold returns. cbn zeta.
  destruct (cell s tr (if tc <? fc then 0 else 7)) as [rk|] eqn:Hrk.
  2:{ split; [done|]. intros [?|(_ & _ & _ & (rk & ? & _) & _)]; [lia|done]. }
  read_step. unfold returns.
  destruct (PieceType_eqb (piece_type (pieces s rk)) ROOK) eqn:Hrook; cbn [negb].
  2:{ split; [done|]. intros [?|(_ & _ & _ & (rk' & [= <-] & Hr & _) & _)]; [lia|].
      apply PieceType_eqb_eq in Hr. congruence. }
  apply PieceType_eqb_eq in Hrook. read_step. unfold returns.
  destruct (has_moved (pieces s rk)) eqn:Hrm.
  { split; [done|]. intros [?|(_ & _ & _ & (rk' & [= <-] & _ & ?) & _)]; [lia|congruence]. }
  rewrite path_clear_spec by done. unfold all_empty. split.
  - intros Hall. right. repeat split; try done. { by exists rk. }
    intros c Hc. apply (Hall (tr, c)), in_map_iff. exists c. split; [done|].
    apply in_range. lia.
  - intros [?|(_ & _ & _ & _ & Hall)]; [lia|].
    intros sq (c & <- & Hc%in_range)%in_map_iff. cbn [fst snd]. apply Hall. lia.
Qed.

Lemma own_target_same s p pos :
  cell s pos.1 pos.2 = Some p → own_target s p pos = true.
Proof. intros Hp. unfold own_target. rewrite Hp. apply PieceColor_eqb_refl. Qed.

(** ** Rules that do not look at the turn *)

Lemma turn_blind_ret {A} (a : A) : turn_blind (ret a).
Proof. by intros s c. Qed.

Lemma turn_blind_bind {A B} (m : M A) (f : A → M B) :
  turn_blind m → (∀ a, turn_blind (f a)) → turn_blind (bind m f).
Proof.
  intros Hm Hf s c. unfold bind. rewrite Hm.
  destruct (m s) as [a s1|e s1|]; [apply Hf|done..].
Qed.

Lemma turn_blind_attr {A} (f : Piece → A) p : turn_blind (attr f p).
Proof. by intros s c. Qed.

Lemma turn_blind_get_piece row col : turn_blind (get_piece row col).
Proof.
  intros s c. unfold get_piece, board_get.
  destruct (on_board row col); [|reflexivity].
  cbv beta. change (board (with_turn c s)) with (board s).
  destruct (getitem (board s) row) as [line|]; [|reflexivity].
  destruct (getitem line col); reflexivity.
Qed.

Ltac turn_blind_step :=
  repeat first
    [ apply turn_blind_ret | apply turn_blind_attr | apply turn_blind_get_piece
    | assumption
    | apply turn_blind_bind; [|intros ?]
    | match goal with
      | |- turn_blind (match ?x with _ => _ end) => destruct x
      | |- turn_blind (if ?x then _ else _) => destruct x
      end
    | by intros ? ? ].

Lemma turn_blind_path_clear sqs : turn_blind (path_clear sqs).
Proof. induction sqs as [|[r c] rest IH]; simpl; turn_blind_step. Qed.

Lemma turn_blind_bishop_walk fuel r c tr tc rs cs :
  turn_blind (bishop_walk fuel r c tr tc rs cs).
Proof.
  revert r c. induction fuel as [|fuel IH]; intros r c; simpl; [by intros ? ?|].
  turn_blind_step. apply IH.
Qed.

(** ** What a move keeps *)

(** No piece changes colour in a move, and the only change of kind is
    that of a pawn into a queen. *)
Lemma kinds_kept_move_piece s from_pos to_pos b s' :
  wf_board s → move_piece from_pos to_pos s = Ok b s' → kinds_kept s s'.
Proof.
  intros Hwf Hmove q.
  destruct (move_piece_accepted s from_pos to_pos b s' Hwf Hmove)
    as [[_ ->]|(_ & p & i & j & s1 & _ & _ & _ & Hcast & _ & ->)]; [by auto|].
  rewrite pieces_moved.
  destruct (castled_pieces s p from_pos to_pos s1 p Hcast) as (Hkp & Hcp & _).
  destruct (castled_pieces s p from_pos to_pos s1 q Hcast) as (Hkq & Hcq & _).
  destruct (decide (p = q)) as [<-|?]; cbn [color piece_type]; [|by auto].
  split; [done|]. rewrite Hkp.
  destruct (piece_type (pieces s p)); cbn [PieceType_eqb andb]; auto.
  destruct ((to_pos.1 =? 0) || (to_pos.1 =? 7)); auto.
Qed.

Lemma occupant_origin s from_pos to_pos b s' row col q :
  wf_board s → move_piece from_pos to_pos s = Ok b s' →
  cell s' row col = Some q → ∃ r c, cell s r c = Some q.
Proof.
  intros Hwf Hmove Hq.
  destruct (move_piece_accepted s from_pos to_pos b s' Hwf Hmove)
    as [[_ ->]|(_ & p & i & j & s1 & (Hp & _) & Hi & Hj & Hcast & Hwf1 & ->)];
    [by eauto|].
  pose proof (cell_on_board _ _ _ _ Hp) as Hfrom.
  rewrite cell_settle, cell_carried in Hq by (done || by eapply py_index_lt).
  destruct (at_index i j row col); [injection Hq as <-; by eauto|].
  destruct ((row =? from_pos.1) && (col =? from_pos.2)); [done|].
  destruct (castled_cell s p from_pos to_pos s1 row col q Hwf Hfrom Hcast Hq)
    as [Hs|(_ & _ & Hs & _)]; by eauto.
Qed.

(** In a game, [move_piece] returns when the destination is a square of
    the board. *)
Lemma move_piece_returns_on_board s from_pos to_pos :
  reachable s → on_board to_pos.1 to_pos.2 = true →
  ∃ b s', move_piece from_pos to_pos s = Ok b s'.
Proof.
  intros Hreach Hto. destruct (reachable_invariant s Hreach) as (Hwf & _ & Hhome).
  destruct (move_piece_cases s from_pos to_pos Hwf)
    as [[Hrej _]|(p & (Hp & Hc & Hv) & Hexec)]; [by eauto|].
  pose proof (cell_on_board _ _ _ _ Hp) as Hfrom.
  destruct (py_index_on_board _ _ Hto) as [Hi Hj].
  rewrite Hexec, execute_move_unfold.
  destruct (is_castling (piece_type (pieces s p)) from_pos.2 to_pos.2) eqn:Hcast.
  - unfold is_castling in Hcast. bool_hyp Hcast. destruct Hcast as [Hking Hcols].
    apply PieceType_eqb_eq in Hking.
    rewrite (is_valid_move_eq s p) in Hv by done.
    destruct (own_target s p to_pos); [done|].
    rewrite Hking in Hv. cbn [rule_of] in Hv.
    destruct (validate_king_castling s p from_pos to_pos Hwf Hp Hcols Hv)
      as (Hunmoved & Hrow & rk & Hrk & _).
    pose proof (Hhome _ _ _ Hp Hking Hunmoved) as Hcol.
    assert (Hside : (if to_pos.2 =? 2 then 0 else 7)
                    = (if to_pos.2 <? from_pos.2 then 0 else 7)).
    { rewrite Hcol in *. destruct (Z.eqb_spec to_pos.2 2), (Z.ltb_spec to_pos.2 4); lia. }
    unfold bind at 1. rewrite castle_rook_eq;
      [|done|by apply on_board_spec in Hfrom as [? ?]].
    cbn zeta. rewrite Hside, Hrk.
    erewrite relocate_ok; [by eauto| |done..].
    by apply wf_board_rook_carried.
  - rewrite (bind_ok (ret tt) _ s tt s eq_refl).
    erewrite relocate_ok by done. by eauto.
Qed.

(** ** Games played on the board *)

Lemma in_play_reachable s : in_play s → reachable s.
Proof. induction 1; [constructor|by eapply reach_move]. Qed.

Lemma positions_agree_inj s row col row' col' q :
  positions_agree s → cell s row col = Some q → cell s row' col' = Some q →
  (row, col) = (row', col').
Proof. intros Hagree H1 H2. rewrite <- (Hagree _ _ _ H1). by apply Hagree. Qed.

Lemma positions_agree_step s from_pos to_pos b s' :
  wf_board s → unmoved_kings_home s → positions_agree s →
  on_board to_pos.1 to_pos.2 = true →
  move_piece from_pos to_pos s = Ok b s' → positions_agree s'.
Proof.
  intros Hwf Hhome Hagree Hto Hmove.
  destruct (move_piece_accepted s from_pos to_pos b s' Hwf Hmove)
    as [[_ ->]|(_ & p & i & j & s1 & Hlegal & Hi & Hj & Hcast & Hwf1 & ->)]; [done|].
  pose proof Hlegal as (Hp & _ & Hv).
  pose proof (cell_on_board _ _ _ _ Hp) as Hfrom.
  destruct (py_index_on_board _ _ Hto) as [Hi' Hj'].
  assert (i = Z.to_nat to_pos.1) as -> by congruence.
  assert (j = Z.to_nat to_pos.2) as -> by congruence.
  apply on_board_spec in Hto as Hto'. apply on_board_spec in Hfrom as Hfrom'.
  intros row col q Hq.
  rewrite cell_settle, cell_carried, at_index_on_board in Hq by (done || lia).
  rewrite pieces_moved.
  destruct ((row =? to_pos.1) && (col =? to_pos.2)) eqn:Hat.
  { injection Hq as <-. destruct (decide (p = p)); [|done]. cbn [position].
    bool_hyp Hat. destruct to_pos. cbn [fst snd] in *. by destruct Hat as [-> ->]. }
  destruct ((row =? from_pos.1) && (col =? from_pos.2)) eqn:Hfr; [done|].
  assert (Hoff : (row, col) ≠ (from_pos.1, from_pos.2)).
  { intros [= -> ->]. by rewrite !Z.eqb_refl in Hfr. }
  unfold castled in Hcast.
  destruct (is_castling (piece_type (pieces s p)) from_pos.2 to_pos.2) eqn:Hcastling.
  - destruct Hcast as (rk & Hrk & ->).
    unfold is_castling in Hcastling. bool_hyp Hcastling.
    destruct Hcastling as [Hking Hcols]. apply PieceType_eqb_eq in Hking.
    rewrite (is_valid_move_eq s p) in Hv by done.
    destruct (own_target s p to_pos); [done|].
    rewrite Hking in Hv. cbn [rule_of] in Hv.
    destruct (validate_king_castling s p from_pos to_pos Hwf Hp Hcols Hv)
      as (Hunmoved & _ & _).
    pose proof (Hhome _ _ _ Hp Hking Hunmoved) as Hcol.
    set (rc := if to_pos.2 =? 2 then 0 else 7) in *.
    set (rt := if to_pos.2 =? 2 then 3 else 5) in *.
    assert (Hrc : rc = 0 ∨ rc = 7) by (unfold rc; destruct (to_pos.2 =? 2); auto).
    assert (Hrt : rt = 3 ∨ rt = 5) by (unfold rt; destruct (to_pos.2 =? 2); auto).
    assert (Hprk : p ≠ rk).
    { intros ->. pose proof (positions_agree_inj _ _ _ _ _ _ Hagree Hp Hrk). simplify_eq. lia. }
    rewrite cell_castled in Hq by (done || apply on_board_spec; lia).
    rewrite !pieces_castled.
    destruct ((row =? from_pos.1) && (col =? rt)) eqn:Htarget.
    + injection Hq as <-. destruct (decide (p = rk)); [done|].
      destruct (decide (rk = rk)); [|done]. cbn [position].
      bool_hyp Htarget. by destruct Htarget as [-> ->].
    + destruct ((row =? from_pos.1) && (col =? rc)) eqn:Hcorner; [done|].
      destruct (decide (p = q)) as [<-|_].
      { by destruct Hoff; apply (positions_agree_inj s _ _ _ _ p). }
      destruct (decide (rk = q)) as [<-|_]; [|by apply Hagree].
      pose proof (positions_agree_inj _ _ _ _ _ _ Hagree Hq Hrk) as [= -> ->].
      by rewrite !Z.eqb_refl in Hcorner.
  - subst s1. destruct (decide (p = q)) as [<-|_]; [|by apply Hagree].
    by destruct Hoff; apply (positions_agree_inj s _ _ _ _ p).
Qed.

Lemma in_play_positions_agree s : in_play s → positions_agree s.
Proof.
  induction 1 as [|s from_pos to_pos b s' Hplay IH Hfrom Hto Hmove].
  - intros row col q Hq.
    pose proof (all_cells_spec
      (λ row col q,
         let '(r, c) := position (pieces new_game q) in (r =? row) && (c =? col))
      new_game row col q ltac:(by vm_compute) Hq) as Hcheck.
    cbn beta in Hcheck. destruct (position (pieces new_game q)) as [r c].
    bool_hyp Hcheck. by destruct Hcheck as [-> ->].
  - destruct (reachable_invariant s (in_play_reachable s Hplay)) as (Hwf & _ & Hhome).
    by eapply positions_agree_step.
Qed.

Lemma reachable_one_king s : reachable s → one_king s.
Proof.
  induction 1 as [|s from_pos to_pos b s' Hreach IH Hmove].
  - intros row col q row' col' q' Hq Hq' Hk Hk' Hc.
    pose proof (all_cells_spec
      (λ _ _ q, negb (PieceType_eqb (piece_type (pieces new_game q)) KING)
                || (q =? 24)%nat || (q =? 25)%nat)
      new_game) as Hcheck.
    pose proof (Hcheck row col q ltac:(by vm_compute) Hq) as H1.
    pose proof (Hcheck row' col' q' ltac:(by vm_compute) Hq') as H2.
    cbn beta in H1, H2. rewrite Hk in H1. rewrite Hk' in H2.
    cbn [PieceType_eqb negb orb] in H1, H2. bool_hyp H1. bool_hyp H2.
    clear Hcheck Hq Hq' Hk Hk'.
    destruct H1 as [->| ->], H2 as [->| ->];
      [reflexivity|vm_compute in Hc; discriminate Hc
      |vm_compute in Hc; discriminate Hc|reflexivity].
  - destruct (reachable_invariant s Hreach) as (Hwf & _).
    pose proof (kinds_kept_move_piece s from_pos to_pos b s' Hwf Hmove) as Hkept.
    intros row col q row' col' q' Hq Hq' Hk Hk' Hc.
    destruct (occupant_origin _ _ _ _ _ _ _ _ Hwf Hmove Hq) as (r & c & Ho).
    destruct (occupant_origin _ _ _ _ _ _ _ _ Hwf Hmove Hq') as (r' & c' & Ho').
    destruct (Hkept q) as [Hcq [Htq|[_ Htq]]]; [|congruence].
    destruct (Hkept q') as [Hcq' [Htq'|[_ Htq']]]; [|congruence].
    apply (IH r c q r' c' q'); congruence.
Qed.

Lemma in_play_plays moves s s' :
  in_play s → on_board_moves moves = true → plays moves s = Some s' → in_play s'.
Proof.
  revert s. induction moves as [|m rest IH]; intros s Hs Hon; simpl.
  - by intros [= <-].
  - cbn [on_board_moves forallb] in Hon.
    apply andb_true_iff in Hon as [Hm Hrest]. apply andb_true_iff in Hm as [Hf Ht].
    destruct (move_piece m.1 m.2 s) as [b s1| |] eqn:Hmove; [|done..].
    apply IH; [|done]. exact (play_move s m.1 m.2 b s1 Hs Hf Ht Hmove).
Qed.

Lemma in_play_before_promotion : in_play before_promotion.
Proof.
  apply (in_play_plays promotion_moves new_game); [constructor|by vm_compute..].
Qed.

Lemma in_play_before_castling : in_play before_castling.
Proof.
  apply (in_play_plays castling_moves new_game); [constructor|by vm_compute..].
Qed.

(** ** The click handler *)

Lemma getattr_is_checkmate s : getattr "is_checkmate" s = Raise AttributeError s.
Proof. reflexivity. Qed.

Lemma click_square_on_board pos :
  0 ≤ pos.1 < screen_size → 0 ≤ pos.2 < screen_size →
  on_board (click_square pos).1 (click_square pos).2 = true.
Proof.
  intros Hx Hy. apply on_board_spec. unfold click_square, square_size, screen_size in *.
  cbn [fst snd]. change (640 / 8) with 80.
  pose proof (Z.div_lt_upper_bound pos.1 80 8). pose proof (Z.div_pos pos.1 80).
  pose proof (Z.div_lt_upper_bound pos.2 80 8). pose proof (Z.div_pos pos.2 80).
  lia.
Qed.

(** * The claims *)

(** C10. [get_piece] is total over integer coordinates: outside the board it
    returns [None] and raises nothing; on the board it returns the content
    of the grid cell [board[row][col]], and the state is untouched. *)
Theorem get_piece_total s row col :
  wf_board s →
  (¬ (0 ≤ row < 8 ∧ 0 ≤ col < 8) → get_piece row col s = Ok None s)
  ∧ (0 ≤ row < 8 ∧ 0 ≤ col < 8 →
     ∃ line x, board s !! Z.to_nat row = Some line
               ∧ line !! Z.to_nat col = Some x
               ∧ get_piece row col s = Ok x s).
Proof.
  intros Hwf. split.
  - intros Hout. apply get_piece_off. by apply on_board_false.
  - intros [Hr Hc].
    destruct (wf_board_line s (Z.to_nat row) Hwf) as (line & Hline & Hlen); [lia|].
    destruct (lookup_lt_is_Some_2 line (Z.to_nat col)) as [x Hx]; [lia|].
    exists line, x. split; [done|]. split; [done|].
    rewrite get_piece_ok by done. unfold cell.
    rewrite (proj2 (on_board_spec row col)) by done. by rewrite Hline, Hx.
Qed.

Lemma get_piece_total_witness :
  get_piece 8 (-1) new_game = Ok None new_game
  ∧ ∃ line x, board new_game !! 7%nat = Some line
              ∧ line !! 4%nat = Some x
              ∧ get_piece 7 4 new_game = Ok x new_game.
Proof.
  split.
  - apply (get_piece_total new_game 8 (-1) wf_board_new_game). lia.
  - apply (get_piece_total new_game 7 4 wf_board_new_game). lia.
Defined.

(** C7. [is_valid_move] is pure: on every board and for every pair of
    coordinates it returns a boolean and the state after the call is the
    state before it (grid, every field of every piece, turn). *)
Theorem is_valid_move_pure s from_pos to_pos :
  wf_board s → ∃ b, is_valid_move from_pos to_pos s = Ok b s.
Proof. apply returns_is_valid_move. Qed.

Lemma is_valid_move_pure_witness :
  ∃ b, is_valid_move (7, 2) (5, 4) new_game = Ok b new_game.
Proof. apply (is_valid_move_pure new_game (7, 2) (5, 4) wf_board_new_game). Defined.

(** C3. A pair that is not a legal move for the side to move (the
    from-square is empty, or holds a piece of the other side, or the piece
    rule fails) makes [move_piece] return [False] with the whole state as
    it was: grid, pieces and their [has_moved] flags, turn. *)
Theorem move_piece_rejected_unchanged s from_pos to_pos :
  wf_board s →
  cell s from_pos.1 from_pos.2 = None
  ∨ (∃ p, cell s from_pos.1 from_pos.2 = Some p
          ∧ color (pieces s p) ≠ current_turn s)
  ∨ is_valid_move from_pos to_pos s = Ok false s →
  move_piece from_pos to_pos s = Ok false s.
Proof.
  intros Hwf Hbad.
  destruct (move_piece_cases s from_pos to_pos Hwf)
    as [[Hrej _]|(p & (Hp & Hc & Hv) & _)]; [done|].
  destruct Hbad as [Hnone|[(q & Hq & Hne)|Hfail]]; congruence.
Qed.

Lemma move_piece_rejected_unchanged_witness :
  move_piece (7, 0) (5, 2) new_game = Ok false new_game.
Proof.
  apply (move_piece_rejected_unchanged new_game (7, 0) (5, 2) wf_board_new_game).
  right. right. vm_compute. reflexivity.
Defined.

(** X16. The frame of an accepted ordinary move whose destination is a square
    of the board: when [move_piece] returns [True] for it and it is not a
    king move over two columns, the from-square is empty afterwards, the
    to-square holds the moved piece, and every other square holds what it
    held before. *)
Lemma move_piece_frame_on_board s s' from_pos to_pos p :
  wf_board s →
  on_board to_pos.1 to_pos.2 = true →
  cell s from_pos.1 from_pos.2 = Some p →
  is_castling (piece_type (pieces s p)) from_pos.2 to_pos.2 = false →
  move_piece from_pos to_pos s = Ok true s' →
  cell s' from_pos.1 from_pos.2 = None
  ∧ cell s' to_pos.1 to_pos.2 = Some p
  ∧ ∀ row col, (row, col) ≠ from_pos → (row, col) ≠ to_pos →
               cell s' row col = cell s row col.
Proof.
  intros Hwf Hto Hp Hplain Hmove.
  destruct (move_piece_cases s from_pos to_pos Hwf)
    as [[Hrej _]|(q & (Hq & _ & Hv) & Hexec)]; [congruence|].
  assert (q = p) as -> by congruence.
  assert (Hne : from_pos ≠ to_pos).
  { intros ->. rewrite is_valid_move_same in Hv by done. congruence. }
  pose proof (cell_on_board _ _ _ _ Hp) as Hfrom.
  destruct (py_index_on_board _ _ Hto) as [Hi Hj].
  rewrite Hexec, execute_move_unfold, Hplain in Hmove.
  rewrite (bind_ok (ret tt) _ s tt s eq_refl) in Hmove.
  rewrite (relocate_ok s p from_pos to_pos _ _ Hwf Hfrom Hi Hj) in Hmove.
  injection Hmove as <-.
  assert (Hcell : ∀ row col,
            cell (settle p to_pos.1
                    (carried p from_pos to_pos (Z.to_nat to_pos.1) (Z.to_nat to_pos.2) s))
                 row col
            = if (row =? to_pos.1) && (col =? to_pos.2) then Some p
              else if (row =? from_pos.1) && (col =? from_pos.2) then None
              else cell s row col).
  { intros row col. apply on_board_spec in Hto as Hto'.
    rewrite cell_settle, cell_carried, at_index_on_board by (done || lia). done. }
  destruct from_pos as [fr fc], to_pos as [tr tc]. simpl in *.
  repeat split.
  - rewrite Hcell.
    destruct (Z.eqb_spec fr tr), (Z.eqb_spec fc tc); simpl;
      rewrite ?Z.eqb_refl; simpl; congruence.
  - rewrite Hcell. by rewrite !Z.eqb_refl.
  - intros row col Hnf Hnt. rewrite Hcell.
    destruct (Z.eqb_spec row tr), (Z.eqb_spec col tc),
      (Z.eqb_spec row fr), (Z.eqb_spec col fc); simpl; congruence.
Qed.

Lemma move_piece_frame_on_board_example :
  ∃ s', move_piece (6, 4) (4, 4) new_game = Ok true s'
        ∧ cell s' 6 4 = None
        ∧ cell s' 4 4 = Some 9%nat
        ∧ ∀ row col, (row, col) ≠ (6, 4) → (row, col) ≠ (4, 4) →
                     cell s' row col = cell new_game row col.
Proof.
  eexists. split; [by vm_compute|].
  eapply (move_piece_frame_on_board new_game _ (6, 4) (4, 4) 9%nat wf_board_new_game);
    by vm_compute.
Defined.

(** C9. The frame of an accepted ordinary move does not hold when the
    destination is off the board, because a negative index wraps around in
    [set_piece].  On the new game the rook move (7,0) -> (7,-1) is accepted,
    is no castling move, and changes the square (7,7), which is neither of
    the two named squares: the rook of (7,7) is replaced by the rook that
    moved.  After the first move the rook move (0,0) -> (-8,0) is accepted
    and the from-square is not empty afterwards: the rook is written back
    onto it. *)
Theorem move_piece_frame_wraps :
  (∃ s', move_piece (7, 0) (7, -1) new_game = Ok true s'
         ∧ cell new_game 7 0 = Some 17%nat
         ∧ is_castling (piece_type (pieces new_game 17%nat)) 0 (-1) = false
         ∧ cell new_game 7 7 = Some 31%nat
         ∧ cell s' 7 7 = Some 17%nat
         ∧ cell s' 7 (-1) = None)
  ∧ (∃ s', move_piece (0, 0) (-8, 0) after_first_move = Ok true s'
           ∧ cell after_first_move 0 0 = Some 16%nat
           ∧ is_castling (piece_type (pieces after_first_move 16%nat)) 0 0 = false
           ∧ cell s' 0 0 = Some 16%nat
           ∧ position (pieces s' 16%nat) = (-8, 0)).
Proof.
  split; (eexists; split; [by vm_compute|]; by vm_compute).
Qed.

(** C1. Out-of-range destinations are not rejected.  On the new game the
    pair (7,1) -> (9,2) passes [is_valid_move] (the knight rule only looks at
    the two deltas), and [move_piece] then raises [IndexError] from
    [set_piece], after the from-square has been cleared and the knight's
    [position] overwritten: an exception and a partly changed board, where
    the specification promises [False] and no change.  A negative
    destination is accepted as well and wraps around: after the first move
    the Black knight goes from (0,1) to (-1,3) and lands on (7,3).  A
    from-square off the board is rejected with no change. *)
Theorem move_piece_off_board_raises :
  is_valid_move (7, 1) (9, 2) new_game = Ok true new_game
  ∧ cell new_game 7 1 = Some 19%nat
  ∧ (∃ s', move_piece (7, 1) (9, 2) new_game = Raise IndexError s'
           ∧ cell s' 7 1 = None
           ∧ position (pieces s' 19%nat) = (9, 2))
  ∧ (∃ s', move_piece (0, 1) (-1, 3) after_first_move = Ok true s'
           ∧ cell after_first_move 0 1 = Some 18%nat
           ∧ cell s' 7 3 = Some 18%nat)
  ∧ move_piece (9, 2) (7, 1) new_game = Ok false new_game.
Proof.
  split; [by vm_compute|]. split; [by vm_compute|].
  split; [eexists; split; [by vm_compute|]; by vm_compute|].
  split; [eexists; split; [by vm_compute|]; by vm_compute|].
  by vm_compute.
Qed.

(** C2. [check_game_state] calls [self.board.is_checkmate()], and
    [is_stalemate] and [get_all_valid_moves] are called likewise, but
    [ChessBoard] defines none of the three: on every board the lookup raises
    [AttributeError] before anything is decided about check or mate. *)
Theorem is_checkmate_undefined s :
  getattr "is_checkmate" s = Raise AttributeError s
  ∧ getattr "is_stalemate" s = Raise AttributeError s
  ∧ getattr "get_all_valid_moves" s = Raise AttributeError s
  ∧ getattr "is_valid_move" s = Ok tt s.
Proof. by repeat split. Qed.

(** C5. For a pawn on the from-square, [is_valid_move] holds exactly when
    the pair is one step forward on the same column to an empty square, or
    two steps forward on the same column from the starting rank (row 6 for
    White, row 1 for Black) with the intermediate and the destination square
    empty, or one step diagonally forward onto a square held by an opposing
    piece.  In particular a White pawn on (6,4) may go to (4,4) iff (5,4) and
    (4,4) are both empty.  The rule does not look at whose turn it is. *)
Theorem pawn_legality s p from_pos to_pos :
  wf_board s →
  cell s from_pos.1 from_pos.2 = Some p →
  piece_type (pieces s p) = PAWN →
  (is_valid_move from_pos to_pos s = Ok true s ↔ pawn_rule s p from_pos to_pos)
  ∧ (from_pos = (6, 4) → to_pos = (4, 4) → color (pieces s p) = WHITE →
     (is_valid_move from_pos to_pos s = Ok true s
      ↔ cell s 5 4 = None ∧ cell s 4 4 = None)).
Proof.
  intros Hwf Hp Hpawn. split; [by apply is_valid_move_pawn|].
  intros -> -> Hwhite. rewrite (is_valid_move_pawn s p) by done.
  unfold pawn_rule. rewrite Hwhite. cbn [fst snd pawn_direction pawn_start_row].
  split.
  - intros [(_ & ? & _)|[(_ & _ & _ & ? & ?)|(? & _)]]; (done || lia).
  - intros [? ?]. right. left. repeat split; (done || lia).
Qed.

Lemma pawn_legality_witness :
  (is_valid_move (6, 4) (4, 4) new_game = Ok true new_game
   ↔ pawn_rule new_game 9%nat (6, 4) (4, 4))
  ∧ ((6, 4) = (6, 4) → (4, 4) = (4, 4) → color (pieces new_game 9%nat) = WHITE →
     (is_valid_move (6, 4) (4, 4) new_game = Ok true new_game
      ↔ cell new_game 5 4 = None ∧ cell new_game 4 4 = None)).
Proof.
  apply (pawn_legality new_game 9%nat (6, 4) (4, 4) wf_board_new_game);
    by vm_compute.
Defined.

(** C6. When [move_piece] accepts the move of a pawn to its farthest rank
    (row 0 for a White pawn, row 7 for a Black one), the piece on the
    destination square is a queen afterwards; and in every state a game
    reaches, no pawn stands on row 0 or row 7. *)
Theorem pawn_promotion :
  (∀ s s' from_pos to_pos p,
     wf_board s →
     cell s from_pos.1 from_pos.2 = Some p →
     piece_type (pieces s p) = PAWN →
     to_pos.1 = (match color (pieces s p) with WHITE => 0 | BLACK => 7 end) →
     move_piece from_pos to_pos s = Ok true s' →
     cell s' to_pos.1 to_pos.2 = Some p ∧ piece_type (pieces s' p) = QUEEN)
  ∧ (∀ s, reachable s →
          ∀ row col q, cell s row col = Some q → row = 0 ∨ row = 7 →
                       piece_type (pieces s q) ≠ PAWN).
Proof.
  split; [|intros s Hs; apply (reachable_invariant s Hs)].
  intros s s' from_pos to_pos p Hwf Hp Hpawn Hrow Hmove.
  destruct (move_piece_accepted s from_pos to_pos true s' Hwf Hmove)
    as [[? _]|(_ & q & i & j & s1 & Hlegal & Hi & Hj & Hcast & Hwf1 & ->)]; [done|].
  pose proof Hlegal as (Hq & _ & Hv).
  assert (q = p) as -> by congruence.
  pose proof (cell_on_board _ _ _ _ Hp) as Hfrom.
  unfold castled in Hcast. rewrite Hpawn in Hcast. cbn in Hcast. subst s1.
  assert (Hto : on_board to_pos.1 to_pos.2 = true).
  { apply on_board_spec. apply on_board_spec in Hfrom as [_ Hfc].
    split; [destruct (color (pieces s p)); lia|].
    apply (is_valid_move_pawn s p) in Hv; [|done..].
    destruct Hv as [(-> & _)|[(-> & _)|(_ & _ & t & Ht & _)]]; [done..|].
    by apply cell_on_board, on_board_spec in Ht as [_ ?]. }
  destruct (py_index_on_board _ _ Hto) as [Hi' Hj'].
  assert (i = Z.to_nat to_pos.1) as -> by congruence.
  assert (j = Z.to_nat to_pos.2) as -> by congruence.
  apply on_board_spec in Hto as Hto'.
  split.
  - rewrite cell_settle, cell_carried, at_index_on_board by (done || lia).
    by rewrite !Z.eqb_refl.
  - rewrite pieces_moved, Hpawn. destruct (decide (p = p)); [|done].
    cbn [piece_type PieceType_eqb andb].
    by destruct (color (pieces s p)); rewrite Hrow.
Qed.

Lemma pawn_promotion_witness :
  (∃ s', move_piece (1, 1) (0, 0) before_promotion = Ok true s'
         ∧ cell s' 0 0 = Some 1%nat ∧ piece_type (pieces s' 1%nat) = QUEEN)
  ∧ (∀ row col q, cell before_promotion row col = Some q → row = 0 ∨ row = 7 →
                  piece_type (pieces before_promotion q) ≠ PAWN).
Proof.
  destruct pawn_promotion as [Hstep Hall]. split.
  - eexists. split; [by vm_compute|].
    apply (Hstep before_promotion _ (1, 1) (0, 0) 1%nat); try by vm_compute.
    apply (reachable_invariant _ reachable_before_promotion).
  - apply (Hall before_promotion reachable_before_promotion).
Defined.

(** C4. In a game, when [move_piece] accepts a king move over two columns,
    the rook on the side the king moves to is relocated: from column 0 to
    column 3 on the queen's side, from column 7 to column 5 on the king's
    side; that rook is marked as moved, the king stands on the destination
    and is marked as moved, and the turn passes to the other side: to
    Black after a White move, to White after a Black one. *)
Theorem castling_relocates_rook s s' from_pos to_pos p :
  reachable s →
  cell s from_pos.1 from_pos.2 = Some p →
  piece_type (pieces s p) = KING →
  Z.abs (from_pos.2 - to_pos.2) = 2 →
  move_piece from_pos to_pos s = Ok true s' →
  let rook_col := if to_pos.2 <? from_pos.2 then 0 else 7 in
  let rook_target_col := if to_pos.2 <? from_pos.2 then 3 else 5 in
  ∃ rk, cell s from_pos.1 rook_col = Some rk
        ∧ piece_type (pieces s rk) = ROOK
        ∧ cell s' from_pos.1 rook_col = None
        ∧ cell s' from_pos.1 rook_target_col = Some rk
        ∧ has_moved (pieces s' rk) = true
        ∧ cell s' to_pos.1 to_pos.2 = Some p
        ∧ has_moved (pieces s' p) = true
        ∧ current_turn s' = match current_turn s with
                            | WHITE => BLACK
                            | BLACK => WHITE
                            end.
Proof.
  intros Hreach Hp Hking Hcols Hmove.
  destruct (reachable_invariant s Hreach) as (Hwf & _ & Hhome).
  destruct (move_piece_accepted s from_pos to_pos true s' Hwf Hmove)
    as [[? _]|(_ & q & i & j & s1 & Hlegal & Hi & Hj & Hcast & Hwf1 & ->)]; [done|].
  pose proof Hlegal as (Hq & _ & Hv).
  assert (q = p) as -> by congruence.
  pose proof (cell_on_board _ _ _ _ Hp) as Hfrom.
  rewrite (is_valid_move_eq s p) in Hv by done.
  destruct (own_target s p to_pos); [done|].
  rewrite Hking in Hv. cbn [rule_of] in Hv.
  destruct (validate_king_castling s p from_pos to_pos Hwf Hp Hcols Hv)
    as (Hunmoved & Hrow & rk & Hrk & Hrook & _).
  pose proof (Hhome _ _ _ Hp Hking Hunmoved) as Hcol.
  pose proof (castled_turn _ _ _ _ _ Hcast) as Hturn.
  unfold castled, is_castling in Hcast. rewrite Hking in Hcast.
  cbn [PieceType_eqb andb] in Hcast.
  destruct from_pos as [fr fc], to_pos as [tr tc]. cbn [fst snd] in *. subst fc tr.
  rewrite (proj2 (Z.eqb_eq _ _) Hcols) in Hcast.
  destruct Hcast as (rk' & Hrk' & ->).
  apply on_board_spec in Hfrom as Hfrom'.
  assert (Hsides : (tc = 2 ∧ (tc <? 4) = true ∧ (tc =? 2) = true)
                   ∨ (tc = 6 ∧ (tc <? 4) = false ∧ (tc =? 2) = false)).
  { destruct (Z.eq_dec tc 2) as [->|?]; [by left|].
    right. assert (tc = 6) as -> by lia. done. }
  assert (Hcell : ∀ row col,
    cell (settle p fr (carried p (fr, 4) (fr, tc) i j
            (mark_moved rk' (rook_carried (Some rk') fr (if tc =? 2 then 0 else 7)
                                          (if tc =? 2 then 3 else 5) s)))) row col
    = if (row =? fr) && (col =? tc) then Some p
      else if (row =? fr) && (col =? 4) then None
      else if (row =? fr) && (col =? (if tc =? 2 then 3 else 5)) then Some rk'
      else if (row =? fr) && (col =? (if tc =? 2 then 0 else 7)) then None
      else cell s row col).
  { intros row col.
    assert (Hto : on_board fr tc = true) by (apply on_board_spec; lia).
    destruct (py_index_on_board _ _ Hto) as [Hi' Hj'].
    assert (i = Z.to_nat fr) as -> by congruence.
    assert (j = Z.to_nat tc) as -> by congruence.
    rewrite cell_settle, cell_carried, at_index_on_board by (done || lia).
    cbn [fst snd].
    rewrite cell_castled;
      [done|done|apply on_board_spec; destruct (tc =? 2); lia..]. }
  exists rk.
  destruct Hsides as [(-> & Hlt & Heq)|(-> & Hlt & Heq)];
    rewrite Hlt in *; rewrite ?Heq in *; cbn zeta;
    (assert (rk' = rk) as -> by congruence);
    rewrite !Hcell, !pieces_moved, !pieces_castled, ?Z.eqb_refl, current_turn_settle,
      other_cases;
    cbn -[decide]; repeat split; try done;
    destruct (decide (p = p)), (decide (p = rk)), (decide (rk = rk)); done.
Qed.

(** Outside a game the king need not stand on column 4, and then the rule
    and the castling block look at different rooks: on [king_off_home] the
    move (7,3) -> (7,1) is accepted for the rook on (7,0), and the piece moved
    is the one on (7,7), onto (7,5). *)
Remark castling_king_off_home :
  ¬ reachable king_off_home
  ∧ ∃ s', move_piece (7, 3) (7, 1) king_off_home = Ok true s'
          ∧ cell s' 7 0 = cell king_off_home 7 0
          ∧ cell s' 7 7 = None
          ∧ cell s' 7 5 = cell king_off_home 7 7.
Proof.
  split.
  - intros Hreach. apply reachable_invariant in Hreach as (_ & _ & Hhome).
    specialize (Hhome 7 3 25%nat). by vm_compute in Hhome; specialize (Hhome eq_refl eq_refl eq_refl).
  - eexists. split; [by vm_compute|]. by vm_compute.
Qed.

Lemma castling_relocates_rook_witness :
  ∃ s', move_piece (7, 4) (7, 6) before_castling = Ok true s'
        ∧ ∃ rk, cell before_castling 7 7 = Some rk
                ∧ piece_type (pieces before_castling rk) = ROOK
                ∧ cell s' 7 7 = None
                ∧ cell s' 7 5 = Some rk
                ∧ has_moved (pieces s' rk) = true
                ∧ cell s' 7 6 = Some 25%nat
                ∧ has_moved (pieces s' 25%nat) = true
                ∧ current_turn s' = match current_turn before_castling with
                                    | WHITE => BLACK
                                    | BLACK => WHITE
                                    end.
Proof.
  eexists. split; [by vm_compute|].
  apply (castling_relocates_rook before_castling _ (7, 4) (7, 6) 25%nat
           reachable_before_castling); by vm_compute.
Defined.

(** C8. The [has_moved] flag of a piece is monotone: a run of engine calls
    ([get_piece], [is_valid_move], [move_piece], in any order and with any
    arguments, returning or raising) on a board ends, and every flag that
    was set before the run is set after it. *)
Theorem has_moved_monotone calls s :
  wf_board s →
  ∃ s', run calls s = Some s'
        ∧ ∀ r, has_moved (pieces s r) = true → has_moved (pieces s' r) = true.
Proof.
  revert s. induction calls as [|o rest IH]; intros s Hwf; simpl.
  - by exists s.
  - pose proof (call_ends o s Hwf) as Hend.
    pose proof (flags_kept_call o s) as Hflags.
    pose proof (shape_kept_call o s) as Hshape.
    destruct (call o s) as [[] s1|e s1|]; [| |done];
      (destruct (IH s1 (Hshape Hwf)) as (s' & Hrun & Hrest);
       exists s'; split; [done|]; intros r Hr; by apply Hrest, Hflags).
Qed.

Lemma has_moved_monotone_witness :
  ∃ s', run [Call_is_valid_move (1, 4) (3, 4); Call_move_piece (1, 4) (3, 4);
             Call_move_piece (7, 1) (9, 2); Call_get_piece 4 4;
             Call_move_piece (3, 4) (4, 4); Call_move_piece (0, 1) (2, 2)]
            after_first_move = Some s'
        ∧ has_moved (pieces s' 9%nat) = true.
Proof.
  destruct (has_moved_monotone
              [Call_is_valid_move (1, 4) (3, 4); Call_move_piece (1, 4) (3, 4);
               Call_move_piece (7, 1) (9, 2); Call_get_piece 4 4;
               Call_move_piece (3, 4) (4, 4); Call_move_piece (0, 1) (2, 2)]
              after_first_move) as (s' & Hrun & Hflags).
  - split; [by vm_compute|]. vm_compute. repeat constructor.
  - exists s'. split; [done|]. apply Hflags. by vm_compute.
Defined.

(** * Further properties of the engine and of the game *)

(** ** The piece rules *)

(** X1. A knight move is valid exactly when the deltas are (2,1) or (1,2)
    and the target holds no piece of the knight's colour: nothing else on
    the board matters, the knight jumps. *)
Theorem knight_legality s p from_pos to_pos :
  wf_board s → cell s from_pos.1 from_pos.2 = Some p →
  piece_type (pieces s p) = KNIGHT →
  is_valid_move from_pos to_pos s = Ok true s
  ↔ own_target s p to_pos = false ∧ knight_rule from_pos to_pos.
Proof.
  intros Hwf Hp Hkind. rewrite (is_valid_move_eq s p), Hkind by done.
  destruct (own_target s p to_pos); [by split; [|intros []]|].
  cbn [rule_of]. unfold _validate_knight, knight_rule, ret. cbn zeta. split.
  - intros [= Hb]. split; [done|]. by bool_hyp Hb.
  - intros [_ Hr]. f_equal. by rewrite orb_true_iff, !andb_true_iff, !Z.eqb_eq.
Qed.

Lemma knight_legality_witness :
  is_valid_move (7, 1) (5, 2) new_game = Ok true new_game
  ↔ own_target new_game 19%nat (5, 2) = false ∧ knight_rule (7, 1) (5, 2).
Proof.
  apply (knight_legality new_game 19%nat (7, 1) (5, 2) wf_board_new_game);
    by vm_compute.
Defined.

(** X2. A rook move is valid exactly when the two squares share a row or a
    column, every square strictly between them is empty, and the target
    holds no piece of the rook's colour. *)
Theorem rook_legality s p from_pos to_pos :
  wf_board s → cell s from_pos.1 from_pos.2 = Some p →
  piece_type (pieces s p) = ROOK →
  is_valid_move from_pos to_pos s = Ok true s
  ↔ own_target s p to_pos = false ∧ rook_rule s from_pos to_pos.
Proof.
  intros Hwf Hp Hkind. rewrite (is_valid_move_eq s p), Hkind by done.
  destruct (own_target s p to_pos); [by split; [|intros []]|].
  cbn [rule_of]. rewrite validate_rook_spec by done. by split; [|intros []].
Qed.

Lemma rook_legality_witness :
  is_valid_move (7, 0) (5, 0) new_game = Ok true new_game
  ↔ own_target new_game 17%nat (5, 0) = false ∧ rook_rule new_game (7, 0) (5, 0).
Proof.
  apply (rook_legality new_game 17%nat (7, 0) (5, 0) wf_board_new_game);
    by vm_compute.
Defined.

(** X3. A bishop move is valid exactly when the row and column deltas are
    equal in size, every square strictly between on that diagonal is
    empty, and the target holds no piece of the bishop's colour. *)
Theorem bishop_legality s p from_pos to_pos :
  wf_board s → cell s from_pos.1 from_pos.2 = Some p →
  piece_type (pieces s p) = BISHOP →
  is_valid_move from_pos to_pos s = Ok true s
  ↔ own_target s p to_pos = false ∧ bishop_rule s from_pos to_pos.
Proof.
  intros Hwf Hp Hkind. rewrite (is_valid_move_eq s p), Hkind by done.
  destruct (own_target s p to_pos) eqn:Hown; [by split; [|intros []]|].
  assert (from_pos ≠ to_pos).
  { intros ->. by rewrite own_target_same in Hown. }
  cbn [rule_of]. rewrite validate_bishop_spec by done. by split; [|intros []].
Qed.

Lemma bishop_legality_witness :
  is_valid_move (7, 2) (5, 4) new_game = Ok true new_game
  ↔ own_target new_game 21%nat (5, 4) = false ∧ bishop_rule new_game (7, 2) (5, 4).
Proof.
  apply (bishop_legality new_game 21%nat (7, 2) (5, 4) wf_board_new_game);
    by vm_compute.
Defined.

(** X4. A queen move is valid exactly when it satisfies the bishop rule or
    the rook rule and the target holds no piece of the queen's colour. *)
Theorem queen_legality s p from_pos to_pos :
  wf_board s → cell s from_pos.1 from_pos.2 = Some p →
  piece_type (pieces s p) = QUEEN →
  is_valid_move from_pos to_pos s = Ok true s
  ↔ own_target s p to_pos = false
    ∧ (bishop_rule s from_pos to_pos ∨ rook_rule s from_pos to_pos).
Proof.
  intros Hwf Hp Hkind. rewrite (is_valid_move_eq s p), Hkind by done.
  destruct (own_target s p to_pos) eqn:Hown; [by split; [|intros []]|].
  assert (Hne : from_pos ≠ to_pos).
  { intros ->. by rewrite own_target_same in Hown. }
  cbn [rule_of]. unfold _validate_queen.
  destruct from_pos as [fr fc], to_pos as [tr tc].
  destruct (returns_validate_bishop s fr fc tr tc Hwf Hne) as [b Hb].
  rewrite (bind_ok _ _ _ _ _ Hb).
  pose proof (validate_bishop_spec s (fr, fc) (tr, tc) Hwf Hne) as Hbishop.
  rewrite Hb in Hbishop. destruct b.
  - split; [|done]. intros _. split; [done|]. left. by apply Hbishop.
  - rewrite validate_rook_spec by done. split.
    + intros Hr. split; [done|]. by right.
    + intros [_ [Hbi|Hr]]; [|done]. by apply Hbishop in Hbi.
Qed.

Lemma queen_legality_witness :
  is_valid_move (7, 3) (4, 3) new_game = Ok true new_game
  ↔ own_target new_game 23%nat (4, 3) = false
    ∧ (bishop_rule new_game (7, 3) (4, 3) ∨ rook_rule new_game (7, 3) (4, 3)).
Proof.
  apply (queen_legality new_game 23%nat (7, 3) (4, 3) wf_board_new_game);
    by vm_compute.
Defined.

(** X5. A king move is valid exactly when the target holds no piece of the
    king's colour and the move is one step in any direction, or goes two
    columns along the row while the king has not moved, the corner on that
    side holds a rook that has not moved, and every square between king and
    corner is empty.  The colour of that rook is not looked at, nor is any
    attack on the king or on the squares it crosses. *)
Theorem king_legality s p from_pos to_pos :
  wf_board s → cell s from_pos.1 from_pos.2 = Some p →
  piece_type (pieces s p) = KING →
  is_valid_move from_pos to_pos s = Ok true s
  ↔ own_target s p to_pos = false ∧ king_rule s p from_pos to_pos.
Proof.
  intros Hwf Hp Hkind. rewrite (is_valid_move_eq s p), Hkind by done.
  destruct (own_target s p to_pos); [by split; [|intros []]|].
  cbn [rule_of]. rewrite validate_king_spec by done. by split; [|intros []].
Qed.

Lemma king_legality_witness :
  is_valid_move (7, 4) (7, 6) before_castling = Ok true before_castling
  ↔ own_target before_castling 25%nat (7, 6) = false
    ∧ king_rule before_castling 25%nat (7, 4) (7, 6).
Proof.
  apply (king_legality before_castling 25%nat (7, 4) (7, 6));
    [apply (reachable_invariant _ reachable_before_castling)|by vm_compute..].
Defined.

(** X6. [is_valid_move] never looks at whose turn it is: with the turn set
    to either side it returns the same answer (or raises the same
    exception), and leaves the turn as it found it. *)
Theorem is_valid_move_turn_blind from_pos to_pos s c :
  is_valid_move from_pos to_pos (with_turn c s)
  = with_turn_outcome c (is_valid_move from_pos to_pos s).
Proof.
  revert s c. change (turn_blind (is_valid_move from_pos to_pos)).
  destruct from_pos as [fr fc], to_pos as [tr tc].
  unfold is_valid_move, _validate_queen, _validate_pawn, _validate_knight,
    _validate_bishop, _validate_rook, _validate_king.
  pose proof turn_blind_path_clear. pose proof turn_blind_bishop_walk.
  turn_blind_step; (apply turn_blind_path_clear || apply turn_blind_bishop_walk).
Qed.

(** ** Accepted moves *)

(** X7. [move_piece] returns [True] only for a piece of the side to move,
    and then the turn passes to the other side (to Black after White, to
    White after Black), which is not the colour of the piece that moved;
    when it returns [False] the turn stays. *)
Theorem move_piece_turn s from_pos to_pos b s' :
  wf_board s → move_piece from_pos to_pos s = Ok b s' →
  if b then
    current_turn s' = match current_turn s with
                      | WHITE => BLACK
                      | BLACK => WHITE
                      end
    ∧ ∃ p, cell s from_pos.1 from_pos.2 = Some p
           ∧ color (pieces s p) = current_turn s
           ∧ color (pieces s' p) ≠ current_turn s'
  else current_turn s' = current_turn s.
Proof.
  intros Hwf Hmove.
  destruct (move_piece_accepted s from_pos to_pos b s' Hwf Hmove)
    as [[-> ->]|(-> & p & i & j & s1 & (Hp & Hc & _) & _ & _ & Hcast & _ & ->)];
    [done|].
  rewrite current_turn_settle, other_cases.
  change (current_turn (carried p from_pos to_pos i j s1)) with (current_turn s1).
  rewrite (castled_turn _ _ _ _ _ Hcast). split; [done|].
  exists p. split; [done|]. split; [done|].
  rewrite pieces_moved. destruct (decide (p = p)); [|done]. cbn [color].
  destruct (castled_pieces s p from_pos to_pos s1 p Hcast) as (_ & -> & _).
  rewrite Hc. by destruct (current_turn s).
Qed.

Lemma move_piece_turn_witness :
  ∃ s', move_piece (6, 4) (4, 4) new_game = Ok true s'
        ∧ current_turn s' = match current_turn new_game with
                            | WHITE => BLACK
                            | BLACK => WHITE
                            end
        ∧ ∃ p, cell new_game 6 4 = Some p
               ∧ color (pieces new_game p) = current_turn new_game
               ∧ color (pieces s' p) ≠ current_turn s'.
Proof.
  eexists. split; [by vm_compute|].
  apply (move_piece_turn new_game (6, 4) (4, 4) true _ wf_board_new_game).
  by vm_compute.
Defined.



(** X9. Along any sequence of returning [move_piece] calls no piece changes
    colour, and the only change of kind is that of a pawn into a queen. *)
Theorem kinds_kept_plays moves s s' :
  wf_board s → plays moves s = Some s' → wf_board s' ∧ kinds_kept s s'.
Proof.
  revert s. induction moves as [|m rest IH]; intros s Hwf; simpl.
  - intros [= <-]. split; [done|]. by intros q; auto.
  - destruct (move_piece m.1 m.2 s) as [b s1| |] eqn:Hm; [|done..].
    intros Hrest.
    destruct (IH s1 (wf_board_step _ _ _ _ _ Hwf Hm) Hrest) as [Hwf' Hk].
    split; [done|]. intros q.
    destruct (kinds_kept_move_piece _ _ _ _ _ Hwf Hm q) as [Hc1 Ht1].
    destruct (Hk q) as [Hc2 Ht2]. split; [congruence|].
    destruct Ht1 as [Ht1|[Hp1 Hq1]], Ht2 as [Ht2|[Hp2 Hq2]];
      [left|right|right|]; try split; congruence.
Qed.

Lemma kinds_kept_plays_witness :
  wf_board before_promotion ∧ kinds_kept new_game before_promotion.
Proof.
  apply (kinds_kept_plays promotion_moves new_game before_promotion wf_board_new_game).
  by vm_compute.
Defined.

(** ** Destinations on and off the board *)

(** X10. A legal move, not a castling move, whose destination has a row or
    a column outside [-8, 7] makes [move_piece] raise [IndexError]: by then
    the from-square has been cleared and the piece's [position]
    overwritten, and the turn has not passed. *)
Theorem move_piece_index_error s from_pos to_pos p :
  wf_board s → legal s from_pos to_pos p →
  is_castling (piece_type (pieces s p)) from_pos.2 to_pos.2 = false →
  ¬ (-8 ≤ to_pos.1 < 8) ∨ ¬ (-8 ≤ to_pos.2 < 8) →
  ∃ s', move_piece from_pos to_pos s = Raise IndexError s'
        ∧ cell s' from_pos.1 from_pos.2 = None
        ∧ position (pieces s' p) = to_pos
        ∧ current_turn s' = current_turn s.
Proof.
  intros Hwf Hlegal Hplain Hout.
  destruct (move_piece_cases s from_pos to_pos Hwf)
    as [[_ Hno]|(q & Hq & Hexec)]; [by destruct (Hno p)|].
  assert (q = p) as -> by (destruct Hlegal, Hq; congruence).
  destruct Hlegal as (Hp & _ & _).
  pose proof (cell_on_board _ _ _ _ Hp) as Hfrom.
  destruct (py_index_on_board _ _ Hfrom) as [Hi Hj].
  assert (Hnone : py_index 8 to_pos.1 = None ∨ py_index 8 to_pos.2 = None).
  { destruct Hout as [Hout|Hout]; [left|right].
    - destruct (py_index 8 to_pos.1) as [k|] eqn:Hk; [|done].
      apply py_index_inv in Hk. lia.
    - destruct (py_index 8 to_pos.2) as [k|] eqn:Hk; [|done].
      apply py_index_inv in Hk. lia. }
  rewrite Hexec, execute_move_unfold, Hplain.
  rewrite (bind_ok (ret tt) _ s tt s eq_refl). unfold relocate.
  erewrite bind_ok by (by apply set_piece_ok).
  unfold bind at 1. rewrite set_piece_raise; [| by apply wf_board_place | done].
  eexists. split; [done|]. split; [|split].
  - rewrite cell_reposition, cell_place, at_index_on_board
      by (done || apply on_board_spec in Hfrom; lia).
    by rewrite !Z.eqb_refl.
  - cbn. unfold insert, fn_insert. destruct (decide (p = p)); [|done].
    by destruct to_pos.
  - done.
Qed.

Lemma move_piece_index_error_witness :
  ∃ s', move_piece (7, 1) (9, 2) new_game = Raise IndexError s'
        ∧ cell s' 7 1 = None
        ∧ position (pieces s' 19%nat) = (9, 2)
        ∧ current_turn s' = current_turn new_game.
Proof.
  apply (move_piece_index_error new_game (7, 1) (9, 2) 19%nat wf_board_new_game).
  - repeat split; by vm_compute.
  - by vm_compute.
  - left. cbn. lia.
Defined.

(** X11. In a game, [move_piece] raises nothing when the destination is a
    square of the board: it returns [True] or [False]. *)
Theorem move_piece_on_board_returns s from_pos to_pos :
  reachable s → on_board to_pos.1 to_pos.2 = true →
  ∃ b s', move_piece from_pos to_pos s = Ok b s'.
Proof. apply move_piece_returns_on_board. Qed.

Lemma move_piece_on_board_returns_witness :
  ∃ b s', move_piece (7, 4) (7, 6) before_castling = Ok b s'.
Proof.
  apply (move_piece_on_board_returns before_castling (7, 4) (7, 6)
           reachable_before_castling).
  by vm_compute.
Defined.

(** ** Games played on the board *)

(** X12. In a game played on the board, the [position] of every piece on
    the board is the square it stands on, and no piece stands on two
    squares. *)
Theorem in_play_positions s :
  in_play s →
  (∀ row col q, cell s row col = Some q → position (pieces s q) = (row, col))
  ∧ (∀ row col row' col' q,
       cell s row col = Some q → cell s row' col' = Some q →
       (row, col) = (row', col')).
Proof.
  intros Hplay. pose proof (in_play_positions_agree s Hplay) as Hagree.
  split; [done|]. intros row col row' col' q. by apply positions_agree_inj.
Qed.

Lemma in_play_positions_witness :
  (∀ row col q, cell before_castling row col = Some q →
                position (pieces before_castling q) = (row, col))
  ∧ (∀ row col row' col' q,
       cell before_castling row col = Some q →
       cell before_castling row' col' = Some q →
       (row, col) = (row', col')).
Proof. apply (in_play_positions before_castling in_play_before_castling). Defined.

(** X13. A capture takes the piece off the board: in a game played on the
    board, after an accepted move onto a square that held a piece, that
    piece stands on no square. *)
Theorem capture_removes s from_pos to_pos s' t :
  in_play s → on_board to_pos.1 to_pos.2 = true →
  move_piece from_pos to_pos s = Ok true s' →
  cell s to_pos.1 to_pos.2 = Some t →
  ∀ row col, cell s' row col ≠ Some t.
Proof.
  intros Hplay Hto Hmove Ht row col Hq.
  pose proof (in_play_positions_agree s Hplay) as Hagree.
  destruct (reachable_invariant s (in_play_reachable s Hplay)) as (Hwf & _ & Hhome).
  destruct (move_piece_accepted s from_pos to_pos true s' Hwf Hmove)
    as [[? _]|(_ & p & i & j & s1 & Hlegal & Hi & Hj & Hcast & Hwf1 & ->)]; [done|].
  pose proof Hlegal as (Hp & _ & Hv).
  pose proof (cell_on_board _ _ _ _ Hp) as Hfrom.
  destruct (py_index_on_board _ _ Hto) as [Hi' Hj'].
  assert (i = Z.to_nat to_pos.1) as -> by congruence.
  assert (j = Z.to_nat to_pos.2) as -> by congruence.
  apply on_board_spec in Hto as Hto'.
  assert (Hne : from_pos ≠ to_pos).
  { intros ->. rewrite is_valid_move_same in Hv by done. congruence. }
  rewrite cell_settle, cell_carried, at_index_on_board in Hq by (done || lia).
  destruct ((row =? to_pos.1) && (col =? to_pos.2)) eqn:Hat.
  { injection Hq as ->.
    pose proof (positions_agree_inj _ _ _ _ _ _ Hagree Hp Ht) as Heq.
    destruct from_pos, to_pos. cbn [fst snd] in *. congruence. }
  destruct ((row =? from_pos.1) && (col =? from_pos.2)); [done|].
  destruct (castled_cell s p from_pos to_pos s1 row col t Hwf Hfrom Hcast Hq)
    as [Hs|(Hcastling & -> & Hs & -> & _)].
  - pose proof (positions_agree_inj _ _ _ _ _ _ Hagree Hs Ht) as [= -> ->].
    by rewrite !Z.eqb_refl in Hat.
  - (* the rook of a castling move does not stand on the king's destination *)
    pose proof (positions_agree_inj _ _ _ _ _ _ Hagree Hs Ht) as [= _ Hcol].
    unfold is_castling in Hcastling. bool_hyp Hcastling.
    destruct Hcastling as [Hking Hcols]. apply PieceType_eqb_eq in Hking.
    rewrite (is_valid_move_eq s p) in Hv by done.
    destruct (own_target s p to_pos); [done|].
    rewrite Hking in Hv. cbn [rule_of] in Hv.
    destruct (validate_king_castling s p from_pos to_pos Hwf Hp Hcols Hv)
      as (Hunmoved & _ & _).
    pose proof (Hhome _ _ _ Hp Hking Hunmoved) as Hhome4.
    destruct (to_pos.2 =? 2); lia.
Qed.

Lemma capture_removes_witness :
  ∃ s', move_piece (1, 1) (0, 0) before_promotion = Ok true s'
        ∧ ∀ row col, cell s' row col ≠ Some 16%nat.
Proof.
  eexists. split; [by vm_compute|].
  apply (capture_removes before_promotion (1, 1) (0, 0) _ 16%nat
           in_play_before_promotion); by vm_compute.
Defined.

(** X14. In a game played on the board each side has at most one king on
    the board: two squares holding kings of one colour are one square. *)
Theorem in_play_one_king s row col q row' col' q' :
  in_play s →
  cell s row col = Some q → cell s row' col' = Some q' →
  piece_type (pieces s q) = KING → piece_type (pieces s q') = KING →
  color (pieces s q) = color (pieces s q') →
  (row, col) = (row', col').
Proof.
  intros Hplay Hq Hq' Hk Hk' Hc.
  pose proof (reachable_one_king s (in_play_reachable s Hplay)
                row col q row' col' q' Hq Hq' Hk Hk' Hc) as <-.
  by apply (positions_agree_inj s _ _ _ _ q (in_play_positions_agree s Hplay)).
Qed.

Lemma in_play_one_king_witness :
  cell before_castling 7 4 = Some 25%nat
  ∧ piece_type (pieces before_castling 25%nat) = KING
  ∧ (7, 4) = (7, 4).
Proof.
  split; [by vm_compute|]. split; [by vm_compute|].
  apply (in_play_one_king before_castling 7 4 25%nat 7 4 25%nat
           in_play_before_castling); by vm_compute.
Defined.

(** X15. [ChessBoard()] sets up the standard position: on every column the
    back-row piece of that column for Black on row 0 and for White on row
    7, a Black pawn on row 1, a White pawn on row 6, nothing on rows 2 to
    5; every piece unmoved, with its square as [position]; White to move. *)
Theorem new_game_setup :
  current_turn new_game = WHITE
  ∧ ∀ col, 0 ≤ col < 8 →
      ∃ k b bp wp w,
        back_row !! Z.to_nat col = Some k
        ∧ cell new_game 0 col = Some b
        ∧ pieces new_game b = mkPiece k BLACK (0, col) false
        ∧ cell new_game 1 col = Some bp
        ∧ pieces new_game bp = mkPiece PAWN BLACK (1, col) false
        ∧ cell new_game 6 col = Some wp
        ∧ pieces new_game wp = mkPiece PAWN WHITE (6, col) false
        ∧ cell new_game 7 col = Some w
        ∧ pieces new_game w = mkPiece k WHITE (7, col) false
        ∧ ∀ row, 2 ≤ row ≤ 5 → cell new_game row col = None.
Proof.
  split; [by vm_compute|]. intros col Hcol.
  assert (Hcases : col = 0 ∨ col = 1 ∨ col = 2 ∨ col = 3
                   ∨ col = 4 ∨ col = 5 ∨ col = 6 ∨ col = 7) by lia.
  destruct Hcases as [->|[->|[->|[->|[->|[->|[->| ->]]]]]]];
    (do 5 eexists; repeat (split; [by vm_compute|]);
     intros row Hrow;
     assert (Hrows : row = 2 ∨ row = 3 ∨ row = 4 ∨ row = 5) by lia;
     destruct Hrows as [->|[->|[->| ->]]]; by vm_compute).
Qed.

(** ** The game *)

(** X17. [str(piece)] raises no [KeyError], tells kind and colour apart,
    and is always one of the keys [_load_images] has filled [self.images]
    with: the lookup [self.images[str(piece)]] of [draw_board] finds its
    image. *)
Theorem Piece_str_image_key :
  (∀ p, ∃ k, Piece_str p = Some k ∧ In k image_keys)
  ∧ (∀ p q, Piece_str p = Piece_str q →
            piece_type p = piece_type q ∧ color p = color q).
Proof.
  split.
  - intros [[] [] pos moved]; eexists; (split; [reflexivity|]);
      cbn; repeat (first [by left|right]).
  - intros [[] [] ? ?] [[] [] ? ?]; by cbn.
Qed.

Section GameFacts.
Context (is_checkmate is_stalemate : M bool).
Context (get_all_valid_moves : PieceColor → M (list ((Z * Z) * (Z * Z)))).
Context (random_choice : list ((Z * Z) * (Z * Z)) → (Z * Z) * (Z * Z)).

Abbreviation click := (handle_click is_checkmate is_stalemate get_all_valid_moves random_choice).

Lemma check_game_state_raises g s :
  check_game_state is_checkmate is_stalemate g s = GRaise AttributeError g s.
Proof. reflexivity. Qed.

(** What a click does once the answer of [move_piece] is known. *)
Lemma handle_click_rejected pos g s sel :
  wf_board s → game_over g = false → selected_piece g = Some sel →
  move_piece sel (click_square pos) s = Ok false s →
  click pos g s
  = GOk tt (mkChessGame
              (match cell s (click_square pos).1 (click_square pos).2 with
               | Some p => if PieceColor_eqb (color (pieces s p)) (current_turn s)
                           then Some (click_square pos) else None
               | None => None
               end) (game_over g) (message g)) s.
Proof.
  intros Hwf Hover Hsel Hmove. destruct g as [gsel gover gmsg].
  cbn [game_over selected_piece message] in *. subst gsel gover.
  unfold handle_click, gbind, get_game. cbn [game_over selected_piece].
  destruct (click_square pos) as [row col] eqn:Hsq.
  unfold on_the_board at 1. rewrite Hmove.
  unfold on_the_board at 1. rewrite get_piece_ok by done. cbn [fst snd].
  by destruct (cell s row col) as [p|].
Qed.

Lemma handle_click_accepted pos g s sel s' :
  game_over g = false → selected_piece g = Some sel →
  move_piece sel (click_square pos) s = Ok true s' →
  click pos g s = GRaise AttributeError (mkChessGame None (game_over g) (message g)) s'.
Proof.
  intros Hover Hsel Hmove. destruct g as [gsel gover gmsg].
  cbn [game_over selected_piece message] in *. subst gsel gover.
  unfold handle_click, gbind, get_game. cbn [game_over selected_piece].
  destruct (click_square pos) as [row col] eqn:Hsq.
  unfold on_the_board at 1. rewrite Hmove.
  unfold set_selected_piece. by rewrite check_game_state_raises.
Qed.

Lemma handle_click_unselected pos g s :
  wf_board s → game_over g = false → selected_piece g = None →
  click pos g s
  = GOk tt (mkChessGame
              (match cell s (click_square pos).1 (click_square pos).2 with
               | Some p => if PieceColor_eqb (color (pieces s p)) (current_turn s)
                           then Some (click_square pos) else None
               | None => None
               end) (game_over g) (message g)) s.
Proof.
  intros Hwf Hover Hsel. destruct g as [gsel gover gmsg].
  cbn [game_over selected_piece message] in *. subst gsel gover.
  unfold handle_click, gbind, get_game. cbn [game_over selected_piece].
  destruct (click_square pos) as [row col] eqn:Hsq.
  unfold on_the_board at 1. rewrite get_piece_ok by done. cbn [fst snd].
  destruct (cell s row col) as [p|]; [|done].
  unfold on_the_board, attr, get_turn, set_selected_piece, gret.
  by destruct (PieceColor_eqb (color (pieces s p)) (current_turn s)).
Qed.

(** X18. A click that returns, in a game that is not over, has made no
    move, and what it leaves selected is nothing or the clicked square,
    holding a piece of the side to move. *)
Theorem handle_click_selection pos g s g' s' :
  wf_board s → game_over g = false →
  click pos g s = GOk tt g' s' →
  s' = s
  ∧ ∀ sq, selected_piece g' = Some sq →
          sq = click_square pos
          ∧ ∃ p, cell s sq.1 sq.2 = Some p ∧ color (pieces s p) = current_turn s.
Proof.
  intros Hwf Hover Hclick.
  assert (Hshape : click pos g s
            = GOk tt (mkChessGame
                (match cell s (click_square pos).1 (click_square pos).2 with
                 | Some p => if PieceColor_eqb (color (pieces s p)) (current_turn s)
                             then Some (click_square pos) else None
                 | None => None
                 end) (game_over g) (message g)) s).
  { destruct (selected_piece g) as [sel|] eqn:Hsel;
      [|by apply handle_click_unselected].
    destruct (move_piece sel (click_square pos) s) as [[] s1|e s1|] eqn:Hmove.
    - by rewrite (handle_click_accepted pos g s sel s1) in Hclick.
    - destruct (move_piece_accepted _ _ _ _ _ Hwf Hmove) as [[_ ->]|[? _]]; [|done].
      by apply handle_click_rejected with sel.
    - exfalso. revert Hclick. unfold handle_click, gbind, get_game.
      rewrite Hover. destruct (click_square pos). rewrite Hsel.
      unfold on_the_board at 1. by rewrite Hmove.
    - exfalso. revert Hclick. unfold handle_click, gbind, get_game.
      rewrite Hover. destruct (click_square pos). rewrite Hsel.
      unfold on_the_board at 1. by rewrite Hmove. }
  rewrite Hshape in Hclick. injection Hclick as <- <-. split; [done|].
  intros sq. cbn [selected_piece].
  change (cell s (pos.2 / square_size) (pos.1 / square_size))
    with (cell s (click_square pos).1 (click_square pos).2).
  generalize (click_square pos). intros c.
  destruct (cell s c.1 c.2) as [p|] eqn:Hp; [|done].
  destruct (PieceColor_eqb (color (pieces s p)) (current_turn s)) eqn:Hc; [|done].
  intros [= <-]. split; [done|]. exists p. split; [done|].
  by apply PieceColor_eqb_eq.
Qed.

(** X19. In a game, a click inside the window either returns with the
    board as it was, or, when it completes a legal move, applies the move,
    clears the selection and raises [AttributeError] from
    [check_game_state]: no click returns after a move, and none raises
    [IndexError]. *)
Theorem handle_click_outcomes pos g s :
  reachable s →
  0 ≤ pos.1 < screen_size → 0 ≤ pos.2 < screen_size →
  (∃ g', click pos g s = GOk tt g' s)
  ∨ (∃ sel s', selected_piece g = Some sel
               ∧ move_piece sel (click_square pos) s = Ok true s'
               ∧ click pos g s
                 = GRaise AttributeError
                          (mkChessGame None (game_over g) (message g)) s').
Proof.
  intros Hreach Hx Hy.
  pose proof (click_square_on_board pos Hx Hy) as Hon.
  destruct (reachable_invariant s Hreach) as (Hwf & _).
  destruct (game_over g) eqn:Hover.
  { left. exists g. unfold handle_click, gbind, get_game. by rewrite Hover. }
  destruct (selected_piece g) as [sel|] eqn:Hsel.
  2:{ left. eexists. by apply handle_click_unselected. }
  destruct (move_piece_returns_on_board s sel (click_square pos) Hreach Hon)
    as ([] & s1 & Hmove).
  - right. exists sel, s1. split; [done|]. split; [done|].
    rewrite <- Hover. by apply (handle_click_accepted pos g s sel s1).
  - destruct (move_piece_accepted _ _ _ _ _ Hwf Hmove) as [[_ ->]|[? _]]; [|done].
    left. eexists. by apply handle_click_rejected with sel.
Qed.

End GameFacts.

Lemma handle_click_selection_witness :
  ∃ g', click_on (330, 500) fresh_game new_game = GOk tt g' new_game
        ∧ ∀ sq, selected_piece g' = Some sq →
                sq = click_square (330, 500)
                ∧ ∃ p, cell new_game sq.1 sq.2 = Some p
                       ∧ color (pieces new_game p) = current_turn new_game.
Proof.
  eexists. split; [by vm_compute|].
  eapply (handle_click_selection (ret false) (ret false) (λ _, ret [])
            (λ _, ((0, 0), (0, 0))) (330, 500) fresh_game new_game _ new_game
            wf_board_new_game eq_refl).
  by vm_compute.
Defined.

Lemma handle_click_outcomes_witness :
  (∃ g', click_on (330, 340) pawn_selected new_game = GOk tt g' new_game)
  ∨ (∃ sel s', selected_piece pawn_selected = Some sel
               ∧ move_piece sel (click_square (330, 340)) new_game = Ok true s'
               ∧ click_on (330, 340) pawn_selected new_game
                 = GRaise AttributeError
                          (mkChessGame None (game_over pawn_selected)
                                       (message pawn_selected)) s').
Proof.
  apply (handle_click_outcomes (ret false) (ret false) (λ _, ret [])
           (λ _, ((0, 0), (0, 0))) (330, 340) pawn_selected new_game reach_new);
    by vm_compute.
Defined.
